(** * The option widget and the package build tasks

    A shallow embedding of [src/lib/core/option/option.ts] (class
    [MdOption], its selection-change event and its module-level id
    counter) and of the gulp task factory [createPackageBuildTasks].

    Objects live in a store and are named by references, because the
    selection-change event carries the emitting option itself and an
    option reads its parent group through a shared reference.  Calls into
    the framework (change detection, event emitters, DOM events) are
    recorded, in order, in a trace. *)

From stdpp Require Import gmap strings pretty list.

Open Scope string_scope.
Open Scope list_scope.

(** ** Data model *)

(** References to objects in the store. *)
Abbreviation ref := positive.

(** Modelled from the spec: [MdOptgroup] (./optgroup) is not part of the
    sources; an option only reads the boolean [disabled] flag of its
    "optional parent group". *)
Record MdOptgroup := { optgroup_disabled : bool }.

(** The host DOM element; [hasFocus] is the outcome of ['focus' in element]. *)
Record HTMLElement := { node : ref; hasFocus : bool }.

Record ElementRef := { nativeElement : HTMLElement }.

(** A DOM keyboard event, as far as the option reads it. *)
Record KeyboardEvent := { keyCode : Z }.

(** Event object emitted by MdOption when selected or deselected. *)
Record MdOptionSelectionChange := { source : ref; isUserInput : bool }.

(** [constructor(public source: MdOption, public isUserInput = false)]:
    an omitted second argument defaults to [false]. *)
Definition new_MdOptionSelectionChange (source : ref) (isUserInput : option bool)
  : MdOptionSelectionChange :=
  {| source := source; isUserInput := default false isUserInput |}.

(** The fields of one [MdOption] instance.  [value] and the text of the
    host element are opaque payloads that no method below reads. *)
Record MdOption := {
  _selected : bool;
  _active : bool;
  _multiple : bool;
  _disableRipple : bool;
  _disabled : bool;
  _id : string;
  _element : ElementRef;
  _changeDetectorRef : ref;
  group : option ref;
  _isCompatibilityMode : option bool;
}.

Definition with_selected (b : bool) (o : MdOption) : MdOption :=
  {| _selected := b; _active := _active o; _multiple := _multiple o;
     _disableRipple := _disableRipple o; _disabled := _disabled o;
     _id := _id o; _element := _element o;
     _changeDetectorRef := _changeDetectorRef o; group := group o;
     _isCompatibilityMode := _isCompatibilityMode o |}.

Definition with_active (b : bool) (o : MdOption) : MdOption :=
  {| _selected := _selected o; _active := b; _multiple := _multiple o;
     _disableRipple := _disableRipple o; _disabled := _disabled o;
     _id := _id o; _element := _element o;
     _changeDetectorRef := _changeDetectorRef o; group := group o;
     _isCompatibilityMode := _isCompatibilityMode o |}.

Definition with_multiple (b : bool) (o : MdOption) : MdOption :=
  {| _selected := _selected o; _active := _active o; _multiple := b;
     _disableRipple := _disableRipple o; _disabled := _disabled o;
     _id := _id o; _element := _element o;
     _changeDetectorRef := _changeDetectorRef o; group := group o;
     _isCompatibilityMode := _isCompatibilityMode o |}.

Definition with_disableRipple (b : bool) (o : MdOption) : MdOption :=
  {| _selected := _selected o; _active := _active o; _multiple := _multiple o;
     _disableRipple := b; _disabled := _disabled o;
     _id := _id o; _element := _element o;
     _changeDetectorRef := _changeDetectorRef o; group := group o;
     _isCompatibilityMode := _isCompatibilityMode o |}.

Definition with_disabled (b : bool) (o : MdOption) : MdOption :=
  {| _selected := _selected o; _active := _active o; _multiple := _multiple o;
     _disableRipple := _disableRipple o; _disabled := b;
     _id := _id o; _element := _element o;
     _changeDetectorRef := _changeDetectorRef o; group := group o;
     _isCompatibilityMode := _isCompatibilityMode o |}.

(** Calls that leave the class: change detection, the [onSelectionChange]
    emitter of an option, and the DOM. *)
Inductive Effect :=
| MarkForCheck (changeDetectorRef : ref)
| Emit (emitter : ref) (event : MdOptionSelectionChange)
| PreventDefault (event : KeyboardEvent)
| ElementFocus (element : ref).

(** The binary64 number nearest to the natural number [x], ties to the
    even significand.  Every natural number up to 2^53 is a binary64
    number; above, a binary64 number has 53 significant bits, so [x] is
    rounded to a multiple of [2 ^ e]. *)
Definition binary64_round (x : N) : N :=
  if (x <=? 2 ^ 53)%N then x
  else
    let e := (N.log2 x - 52)%N in
    let q := (x / 2 ^ e)%N in
    let r := (x mod 2 ^ e)%N in
    let half := (2 ^ (e - 1))%N in
    let q' := if (r <? half)%N then q
              else if (half <? r)%N then (q + 1)%N
              else if N.even q then q else (q + 1)%N in
    (q' * 2 ^ e)%N.

(** The module state and the store.  [_uniqueIdCounter] is a JavaScript
    number, a binary64 value; it only ever holds a natural number, at
    most 2^53, which a template literal prints in plain decimal digits. *)
Record World := {
  _uniqueIdCounter : N;
  options : gmap ref MdOption;
  optgroups : gmap ref MdOptgroup;
  trace : list Effect;
}.

(** [let _uniqueIdCounter = 0;] and nothing constructed yet. *)
Definition initial : World :=
  {| _uniqueIdCounter := 0; options := ∅; optgroups := ∅; trace := [] |}.

(** ** Stateful computations

    A method either yields a result and the next world, or is stuck on a
    reference that names no object (which JavaScript rules out). *)

Definition M (A : Type) : Type := World → option (A * World).

#[global] Instance M_ret : MRet M := λ A a w, Some (a, w).

#[global] Instance M_bind : MBind M := λ A B f m w,
  match m w with
  | Some (a, w') => f a w'
  | None => None
  end.

(** Read the fields of [this]. *)
Definition load (this : ref) : M MdOption := λ w,
  match options w !! this with
  | Some o => Some (o, w)
  | None => None
  end.

(** Assign to a field of [this]. *)
Definition assign (this : ref) (f : MdOption → MdOption) : M unit := λ w,
  match options w !! this with
  | Some o =>
      Some ((), {| _uniqueIdCounter := _uniqueIdCounter w;
                   options := <[this := f o]> (options w);
                   optgroups := optgroups w;
                   trace := trace w |})
  | None => None
  end.

Definition load_group (g : ref) : M MdOptgroup := λ w,
  match optgroups w !! g with
  | Some grp => Some (grp, w)
  | None => None
  end.

Definition perform (e : Effect) : M unit := λ w,
  Some ((), {| _uniqueIdCounter := _uniqueIdCounter w;
               options := options w;
               optgroups := optgroups w;
               trace := trace w ++ [e] |}).

(** [this._changeDetectorRef.markForCheck()] *)
Definition markForCheck (this : ref) : M unit :=
  o ← load this; perform (MarkForCheck (_changeDetectorRef o)).

(** ** The class MdOption *)

(** [_uniqueIdCounter++]: yields the old value and stores the binary64
    sum of the old value and 1.  Below 2^53 that is the successor; at 2^53
    the sum rounds back to 2^53 and the counter no longer moves. *)
Definition next_uniqueId : M N := λ w,
  Some (_uniqueIdCounter w,
        {| _uniqueIdCounter := binary64_round (_uniqueIdCounter w + 1);
           options := options w;
           optgroups := optgroups w;
           trace := trace w |}).

Definition alloc (o : MdOption) : M ref := λ w,
  let this := fresh (dom (options w)) in
  Some (this, {| _uniqueIdCounter := _uniqueIdCounter w;
                 options := <[this := o]> (options w);
                 optgroups := optgroups w;
                 trace := trace w |}).

(** [new MdOption(_element, _changeDetectorRef, group, _isCompatibilityMode)]:
    the field initialisers, among them
    [_id = `md-option-${_uniqueIdCounter++}`]. *)
Definition new_MdOption (element : ElementRef) (changeDetectorRef : ref)
    (grp : option ref) (isCompatibilityMode : option bool) : M ref :=
  n ← next_uniqueId;
  alloc {| _selected := false; _active := false; _multiple := false;
           _disableRipple := false; _disabled := false;
           _id := "md-option-" +:+ pretty n;
           _element := element; _changeDetectorRef := changeDetectorRef;
           group := grp; _isCompatibilityMode := isCompatibilityMode |}.

(** [get multiple()] *)
Definition multiple (this : ref) : M bool :=
  o ← load this; mret (_multiple o).

(** [set multiple(value)] *)
Definition set_multiple (this : ref) (value : bool) : M unit :=
  o ← load this;
  if negb (eqb value (_multiple o)) then
    assign this (with_multiple value);;
    markForCheck this
  else mret ().

(** [get id()] *)
Definition id (this : ref) : M string :=
  o ← load this; mret (_id o).

(** [get selected()] *)
Definition selected (this : ref) : M bool :=
  o ← load this; mret (_selected o).

(** [get disabled() { return (this.group && this.group.disabled) || this._disabled; }] *)
Definition disabled (this : ref) : M bool :=
  o ← load this;
  match group o with
  | Some g =>
      grp ← load_group g;
      mret (optgroup_disabled grp || _disabled o)
  | None => mret (_disabled o)
  end.

(** [set disabled(value) { this._disabled = coerceBooleanProperty(value); }];
    [value] is the boolean that the cdk's coercion returns. *)
Definition set_disabled (this : ref) (value : bool) : M unit :=
  assign this (with_disabled value).

(** [get disableRipple()] *)
Definition disableRipple (this : ref) : M bool :=
  o ← load this; mret (_disableRipple o).

(** [set disableRipple(value)] *)
Definition set_disableRipple (this : ref) (value : bool) : M unit :=
  assign this (with_disableRipple value);;
  markForCheck this.

(** [get active()] *)
Definition active (this : ref) : M bool :=
  o ← load this; mret (_active o).

(** [private _emitSelectionChangeEvent(isUserInput = false)] *)
Definition _emitSelectionChangeEvent (this : ref) (isUserInput : option bool)
  : M unit :=
  let isUserInput := default false isUserInput in
  perform (Emit this (new_MdOptionSelectionChange this (Some isUserInput))).

(** [select()] *)
Definition select (this : ref) : M unit :=
  assign this (with_selected true);;
  markForCheck this;;
  _emitSelectionChangeEvent this None.

(** [deselect()] *)
Definition deselect (this : ref) : M unit :=
  assign this (with_selected false);;
  markForCheck this;;
  _emitSelectionChangeEvent this None.

(** [_getHostElement()] *)
Definition _getHostElement (this : ref) : M HTMLElement :=
  o ← load this; mret (nativeElement (_element o)).

(** [focus()] *)
Definition focus (this : ref) : M unit :=
  element ← _getHostElement this;
  if hasFocus element then perform (ElementFocus (node element))
  else mret ().

(** [setActiveStyles()] *)
Definition setActiveStyles (this : ref) : M unit :=
  o ← load this;
  if negb (_active o) then
    assign this (with_active true);;
    markForCheck this
  else mret ().

(** [setInactiveStyles()] *)
Definition setInactiveStyles (this : ref) : M unit :=
  o ← load this;
  if _active o then
    assign this (with_active false);;
    markForCheck this
  else mret ().

(** [_selectViaInteraction()] *)
Definition _selectViaInteraction (this : ref) : M unit :=
  d ← disabled this;
  if negb d then
    m ← multiple this;
    o ← load this;
    assign this (with_selected (if m : bool then negb (_selected o) else true));;
    markForCheck this;;
    _emitSelectionChangeEvent this (Some true)
  else mret ().

(** [_getTabIndex()] *)
Definition _getTabIndex (this : ref) : M string :=
  d ← disabled this; mret (if d : bool then "-1" else "0").

(** The key codes of [../keyboard/keycodes], which is not part of the
    sources: they are parameters of the keyboard handler. *)
Class Keycodes := { ENTER : Z; SPACE : Z }.

(** [_handleKeydown(event)] *)
Definition _handleKeydown `{Keycodes} (this : ref) (event : KeyboardEvent)
  : M unit :=
  if bool_decide (keyCode event = ENTER) || bool_decide (keyCode event = SPACE)
  then
    _selectViaInteraction this;;
    perform (PreventDefault event)
  else mret ().

(** The host bindings ['(click)': '_selectViaInteraction()'] and
    ['(keydown)': '_handleKeydown($event)']. *)
Inductive HostEvent :=
| click
| keydown (event : KeyboardEvent).

Definition host_listener `{Keycodes} (this : ref) (e : HostEvent) : M unit :=
  match e with
  | click => _selectViaInteraction this
  | keydown event => _handleKeydown this event
  end.

(** The selection-change events in a trace, each with its emitter. *)
Definition emission (e : Effect) : option (ref * MdOptionSelectionChange) :=
  match e with
  | Emit emitter event => Some (emitter, event)
  | _ => None
  end.

Definition emitted (t : list Effect) : list (ref * MdOptionSelectionChange) :=
  omap emission t.

(** The world after [this._selected = b; markForCheck(); emit(event)]. *)
Definition selection_set (this : ref) (b userInput : bool) (o : MdOption)
    (w : World) : World :=
  {| _uniqueIdCounter := _uniqueIdCounter w;
     options := <[this := with_selected b o]> (options w);
     optgroups := optgroups w;
     trace := (trace w ++ [MarkForCheck (_changeDetectorRef o)])
              ++ [Emit this {| source := this; isUserInput := userInput |}] |}.

(** The selection-change events that the step from [w] to [w'] added. *)
Definition new_events (w w' : World) : list (ref * MdOptionSelectionChange) :=
  drop (length (emitted (trace w))) (emitted (trace w')).

(** ** Operations on a world

    What the framework and the parent component can do to the options: create
    one, set an input, call a public method, deliver a host event; and the
    framework creating a group or changing its [disabled] input. *)
Inductive Op :=
| NewOption (element : ElementRef) (changeDetectorRef : ref)
    (grp : option ref) (isCompatibilityMode : option bool)
| SetMultiple (this : ref) (value : bool)
| SetDisabled (this : ref) (value : bool)
| SetDisableRipple (this : ref) (value : bool)
| Select (this : ref)
| Deselect (this : ref)
| Focus (this : ref)
| SetActiveStyles (this : ref)
| SetInactiveStyles (this : ref)
| Host (this : ref) (e : HostEvent)
| GroupInput (g : ref) (grp : MdOptgroup).

Definition set_optgroup (g : ref) (grp : MdOptgroup) : M unit := λ w,
  Some ((), {| _uniqueIdCounter := _uniqueIdCounter w;
               options := options w;
               optgroups := <[g := grp]> (optgroups w);
               trace := trace w |}).

Definition run `{Keycodes} (op : Op) : M unit :=
  match op with
  | NewOption element changeDetectorRef grp isCompatibilityMode =>
      new_MdOption element changeDetectorRef grp isCompatibilityMode;; mret ()
  | SetMultiple this value => set_multiple this value
  | SetDisabled this value => set_disabled this value
  | SetDisableRipple this value => set_disableRipple this value
  | Select this => select this
  | Deselect this => deselect this
  | Focus this => focus this
  | SetActiveStyles this => setActiveStyles this
  | SetInactiveStyles this => setInactiveStyles this
  | Host this e => host_listener this e
  | GroupInput g grp => set_optgroup g grp
  end.

Fixpoint run_all `{Keycodes} (ops : list Op) (w : World) : option World :=
  match ops with
  | [] => Some w
  | op :: ops =>
      match run op w with
      | Some (_, w') => run_all ops w'
      | None => None
      end
  end.

(** The worlds a program can be in: those that operations lead to from the
    freshly loaded module. *)
Inductive reachable `{Keycodes} : World → Prop :=
| reachable_initial : reachable initial
| reachable_run (w w' : World) (op : Op) :
    reachable w → run op w = Some ((), w') → reachable w'.

(** The operations that ask for a selection-change event: [select()],
    [deselect()], and a click or an Enter/Space key press on an option
    that is not disabled. *)
Definition requests_selection `{Keycodes} (op : Op) (w : World) : Prop :=
  match op with
  | Select _ | Deselect _ => True
  | Host this click => disabled this w = Some (false, w)
  | Host this (keydown event) =>
      (keyCode event = ENTER ∨ keyCode event = SPACE) ∧
      disabled this w = Some (false, w)
  | _ => False
  end.

(** "A selection-change event is emitted when and only when the option's
    selected state is actually toggled", for one operation on one world. *)
Definition emits_iff_toggled `{Keycodes} (op : Op) (w : World) : Prop :=
  ∀ (w' : World) (this : ref) (b b' : bool),
    run op w = Some ((), w') →
    selected this w = Some (b, w) →
    selected this w' = Some (b', w') →
    (filter (λ p, p.1 = this) (new_events w w') ≠ [] ↔ b ≠ b').

(** The keyboard handler as the specification words it: Enter or Space
    takes the path of a pointer click and then suppresses the default
    action of the browser; any other key does nothing. *)
Definition spec_keyboard_activation `{Keycodes} (this : ref)
    (event : KeyboardEvent) (w : World) : option (unit * World) :=
  if decide (keyCode event = ENTER ∨ keyCode event = SPACE) then
    match host_listener this click w with
    | Some (_, w1) =>
        Some ((), {| _uniqueIdCounter := _uniqueIdCounter w1;
                     options := options w1;
                     optgroups := optgroups w1;
                     trace := trace w1 ++ [PreventDefault event] |})
    | None => None
    end
  else Some ((), w).

(** A step from [w] to [w'] is quiet when it keeps the counter, the id and
    the selected state of every option, and emits no selection-change
    event. *)
Definition quiet (w w' : World) : Prop :=
  _uniqueIdCounter w' = _uniqueIdCounter w ∧
  (∀ r, _id <$> options w' !! r = _id <$> options w !! r) ∧
  (∀ r, _selected <$> options w' !! r = _selected <$> options w !! r) ∧
  emitted (trace w') = emitted (trace w).

(** A computation all of whose runs are quiet. *)
Definition keeps {A : Type} (m : M A) : Prop :=
  ∀ w a w', m w = Some (a, w') → quiet w w'.




(** A step that constructed one option: it took the next id. *)
Definition constructed (w w' : World) : Prop :=
  ∃ o, _uniqueIdCounter w' = binary64_round (_uniqueIdCounter w + 1) ∧
       options w !! fresh (dom (options w)) = None ∧
       options w' = <[fresh (dom (options w)) := o]> (options w) ∧
       _id o = "md-option-" +:+ pretty (_uniqueIdCounter w) ∧
       emitted (trace w') = emitted (trace w).

(** A step that assigned the selected state of one option and emitted one
    selection-change event from it. *)
Definition selection_changed (w w' : World) : Prop :=
  ∃ this o b u,
    options w !! this = Some o ∧
    _uniqueIdCounter w' = _uniqueIdCounter w ∧
    options w' = <[this := with_selected b o]> (options w) ∧
    emitted (trace w') =
      emitted (trace w) ++ [(this, {| source := this; isUserInput := u |})].

(** ** Sample worlds *)

(** The DOM key codes of Enter and Space. *)
Definition dom_keycodes : Keycodes := {| ENTER := 13; SPACE := 32 |}.

Definition host1 : ElementRef :=
  {| nativeElement := {| node := 1; hasFocus := true |} |}.

Definition host2 : ElementRef :=
  {| nativeElement := {| node := 2; hasFocus := true |} |}.

Definition world_of (ops : list Op) : World :=
  default initial (run_all (H := dom_keycodes) ops initial).

(** One option, selected by a call of [select()]. *)
Definition w_selected : World :=
  world_of [NewOption host1 7 None None; Select 1].

(** The same option after a second call of [select()]. *)
Definition w_selected_again : World :=
  world_of [NewOption host1 7 None None; Select 1; Select 1].

(** One option in multiple mode. *)
Definition w_multiple : World :=
  world_of [NewOption host1 7 None None; SetMultiple 1 true].

(** One option with its own [disabled] input set. *)
Definition w_disabled : World :=
  world_of [NewOption host1 7 None None; SetDisabled 1 true].

(** One option inside a disabled group. *)
Definition w_group_disabled : World :=
  world_of [GroupInput 5 {| optgroup_disabled := true |};
            NewOption host1 7 (Some 5%positive) None].

(** Two options. *)
Definition w_two : World :=
  world_of [NewOption host1 7 None None; NewOption host2 8 None None].

(** The module state once the counter has reached 2^53, the options
    constructed until then left out. *)
Definition w_saturated : World :=
  {| _uniqueIdCounter := 2 ^ 53; options := ∅; optgroups := ∅; trace := [] |}.

(** ** The package build tasks

    [createPackageBuildTasks] registers tasks with gulp.  A task is what
    [gulp.task(name, dep, fn)] stores under [name]; the task functions are
    kept as the calls they make into the tools they are imported from. *)

(** [buildConfig] (../build-config) and node's [path.join] are not part of
    the sources: they are parameters of the factory. *)
Class BuildEnv := {
  packagesDir : string;
  outputDir : string;
  join : list string → string;
}.

(** [interface PackageTaskOptions { useSecondaryEntryPoints?: boolean; }] *)
Record PackageTaskOptions := { useSecondaryEntryPoints : option bool }.

Record HtmlMinifierOptions := {
  collapseWhitespace : bool;
  removeComments : bool;
  caseSensitive : bool;
  removeAttributeQuotes : bool;
}.

Definition htmlMinifierOptions : HtmlMinifierOptions :=
  {| collapseWhitespace := true; removeComments := true;
     caseSensitive := true; removeAttributeQuotes := false |}.

(** An argument of [sequenceTask]: the name of a task, or an array of
    names of tasks that run together. *)
Inductive SequenceArg :=
| TaskName (name : string)
| TaskGroup (names : list string).

(** The body of an arrow function passed to [task]. *)
#[warnings="-register-all"] Inductive Call :=
| composeRelease (packageName : string) (useSecondary : option bool)
| tsc (project basePath : string)
| compileSecondaryEntryPointsEsm (packageName packageRoot : string)
| buildPrimaryEntryPointBundles (entryFile packageName : string)
| buildAllSecondaryEntryPointBundles (packageName : string)
| Promise_all (calls : list Call)
| src_pipe_dest (glob : string) (htmlmin : option HtmlMinifierOptions)
    (out : string)
| inlineResourcesForDirectory (dir : string)
| watchFiles (glob : string) (tasks : list string).

Inductive TaskFunction :=
| sequenceTask (args : list SequenceArg)
| buildScssTask (out root : string) (minifyOutput : bool)
| arrow (body : Call).

Record Task := { dep : list string; fn : option TaskFunction }.

(** Registrations thread the task table of gulp. *)
Definition Gulp (A : Type) : Type := gmap string Task → A * gmap string Task.

#[global] Instance Gulp_ret : MRet Gulp := λ A a tasks, (a, tasks).

#[global] Instance Gulp_bind : MBind Gulp := λ A B f m tasks,
  let '(a, tasks') := m tasks in f a tasks'.

(** [task(name, dep, fn)] *)
Definition task (name : string) (dep : list string) (fn : option TaskFunction)
  : Gulp unit :=
  λ tasks, ((), <[name := {| dep := dep; fn := fn |}]> tasks).

(** [createPackageBuildTasks(packageName, dependencies = [], options = {})] *)
Definition createPackageBuildTasks `{BuildEnv} (packageName : string)
    (dependencies : option (list string))
    (options : option PackageTaskOptions) : Gulp unit :=
  let dependencies := default [] dependencies in
  let options := default {| useSecondaryEntryPoints := None |} options in
  let useSecondary := default false (useSecondaryEntryPoints options) in
  let packageRoot :=
    join [packagesDir;
          if decide (packageName = "material") then "lib" else packageName] in
  let packageOut := join [outputDir; "packages"; packageName] in
  let tsconfigBuild := join [packageRoot; "tsconfig-build.json"] in
  let tsconfigTests := join [packageRoot; "tsconfig-tests.json"] in
  let esmMainFile := join [packageOut; "index.js"] in
  let stylesGlob := join [packageRoot; "**/*.+(scss|css)"] in
  let htmlGlob := join [packageRoot; "**/*.html"] in
  let dependentWatchTasks := (λ pkgName, pkgName +:+ ":watch") <$> dependencies in
  task (packageName +:+ ":clean-build") []
    (Some (sequenceTask [TaskName "clean"; TaskName (packageName +:+ ":build")]));;
  task (packageName +:+ ":build") []
    (Some (sequenceTask
       ((TaskName <$> ((λ pkgName, pkgName +:+ ":build") <$> dependencies))
        ++ [TaskGroup [packageName +:+ ":build:esm"; packageName +:+ ":assets"];
            TaskName (packageName +:+ ":assets:inline");
            TaskName (packageName +:+ ":build:bundles")])));;
  task (packageName +:+ ":build-tests") []
    (Some (sequenceTask
       ((TaskName <$> ((λ pkgName, pkgName +:+ ":build-tests") <$> dependencies))
        ++ [TaskGroup [packageName +:+ ":build:esm:tests";
                       packageName +:+ ":assets"];
            TaskName (packageName +:+ ":assets:inline")])));;
  task (packageName +:+ ":build-release:clean") []
    (Some (sequenceTask [TaskName "clean";
                         TaskName (packageName +:+ ":build-release")]));;
  task (packageName +:+ ":build-release") [packageName +:+ ":build"]
    (Some (arrow (composeRelease packageName (useSecondaryEntryPoints options))));;
  task (packageName +:+ ":build:esm") []
    (Some (arrow
       (if useSecondary then
          Promise_all [compileSecondaryEntryPointsEsm packageName packageRoot;
                       tsc tsconfigBuild packageRoot]
        else tsc tsconfigBuild packageRoot)));;
  task (packageName +:+ ":build:esm:tests") []
    (Some (arrow (tsc tsconfigTests packageRoot)));;
  task (packageName +:+ ":build:bundles") []
    (Some (arrow
       (if useSecondary then
          Promise_all [buildPrimaryEntryPointBundles esmMainFile packageName;
                       buildAllSecondaryEntryPointBundles "cdk"]
        else buildPrimaryEntryPointBundles esmMainFile packageName)));;
  task (packageName +:+ ":assets")
    [packageName +:+ ":assets:scss"; packageName +:+ ":assets:copy-styles";
     packageName +:+ ":assets:html"] None;;
  task (packageName +:+ ":assets:scss") []
    (Some (buildScssTask packageOut packageRoot true));;
  task (packageName +:+ ":assets:copy-styles") []
    (Some (arrow (src_pipe_dest stylesGlob None packageOut)));;
  task (packageName +:+ ":assets:html") []
    (Some (arrow (src_pipe_dest htmlGlob (Some htmlMinifierOptions) packageOut)));;
  task (packageName +:+ ":assets:inline") []
    (Some (arrow (inlineResourcesForDirectory packageOut)));;
  task (packageName +:+ ":watch") dependentWatchTasks
    (Some (arrow (watchFiles (join [packageRoot; "**/*.+(ts|scss|html)"])
                             [packageName +:+ ":build"]))).

(** A build environment that joins path segments with ["/"]. *)
Definition sample_env : BuildEnv :=
  {| packagesDir := "src"; outputDir := "dist";
     join := String.concat "/" |}.

(** ** The host element

    The bindings of the [host] block of the component, as the framework
    evaluates them: ['[attr.tabindex]': '_getTabIndex()'],
    ['[class.mat-selected]': 'selected'], and so on.  [role] and the class
    [mat-option] are constants. *)

(** [Boolean.prototype.toString] *)
Definition toString (b : bool) : string := if b then "true" else "false".

Record HostBindings := {
  attr_tabindex : string;
  class_mat_selected : bool;
  class_mat_option_multiple : bool;
  class_mat_active : bool;
  host_id : string;
  attr_aria_selected : string;
  attr_aria_disabled : string;
  class_mat_option_disabled : bool;
}.

Definition host_bindings (this : ref) : M HostBindings :=
  tabindex ← _getTabIndex this;
  mat_selected ← selected this;
  mat_option_multiple ← multiple this;
  mat_active ← active this;
  i ← id this;
  aria_selected ← selected this;
  aria_disabled ← disabled this;
  mat_option_disabled ← disabled this;
  mret {| attr_tabindex := tabindex;
          class_mat_selected := mat_selected;
          class_mat_option_multiple := mat_option_multiple;
          class_mat_active := mat_active;
          host_id := i;
          attr_aria_selected := toString aria_selected;
          attr_aria_disabled := toString aria_disabled;
          class_mat_option_disabled := mat_option_disabled |}.

(** ** Which fields an operation writes *)

(** The fields of an option that some method assigns. *)
Inductive Field :=
| F_selected
| F_active
| F_multiple
| F_disableRipple
| F_disabled.

#[global] Instance Field_eq_dec : EqDecision Field.
Proof. solve_decision. Defined.

(** [o'] is [o] with at most the fields [fs] assigned. *)
Definition writes (fs : list Field) (o o' : MdOption) : Prop :=
  _id o' = _id o ∧
  _element o' = _element o ∧
  _changeDetectorRef o' = _changeDetectorRef o ∧
  group o' = group o ∧
  _isCompatibilityMode o' = _isCompatibilityMode o ∧
  (F_selected ∉ fs → _selected o' = _selected o) ∧
  (F_active ∉ fs → _active o' = _active o) ∧
  (F_multiple ∉ fs → _multiple o' = _multiple o) ∧
  (F_disableRipple ∉ fs → _disableRipple o' = _disableRipple o) ∧
  (F_disabled ∉ fs → _disabled o' = _disabled o).

(** The step from [w] to [w'] assigned at most the fields [fs] of [this]:
    the counter, the groups and every other option are as before, and no
    option appeared or disappeared. *)
Definition touches (this : ref) (fs : list Field) (w w' : World) : Prop :=
  _uniqueIdCounter w' = _uniqueIdCounter w ∧
  optgroups w' = optgroups w ∧
  (∀ r, r ≠ this → options w' !! r = options w !! r) ∧
  match options w !! this with
  | Some o => ∃ o', options w' !! this = Some o' ∧ writes fs o o'
  | None => options w' !! this = None
  end.

Definition touching {A : Type} (this : ref) (fs : list Field) (m : M A) : Prop :=
  ∀ w a w', m w = Some (a, w') → touches this fs w w'.

(** The option an operation is called on, and the fields it may assign. *)
Definition target (op : Op) : option (ref * list Field) :=
  match op with
  | NewOption _ _ _ _ | GroupInput _ _ => None
  | SetMultiple this _ => Some (this, [F_multiple])
  | SetDisabled this _ => Some (this, [F_disabled])
  | SetDisableRipple this _ => Some (this, [F_disableRipple])
  | Select this | Deselect this | Host this _ => Some (this, [F_selected])
  | Focus this => Some (this, [])
  | SetActiveStyles this | SetInactiveStyles this => Some (this, [F_active])
  end.

(** The selection-change events of a trace come from options that exist
    and name their emitter as their source. *)
Definition events_sourced (w : World) : Prop :=
  ∀ r ev, (r, ev) ∈ emitted (trace w) →
    source ev = r ∧ is_Some (options w !! r).

(** ** The task table after the factory *)

(** The suffixes of the fourteen names the factory registers, in the
    order of the [task] calls. *)
Definition task_suffixes : list string :=
  [":clean-build"; ":build"; ":build-tests"; ":build-release:clean";
   ":build-release"; ":build:esm"; ":build:esm:tests"; ":build:bundles";
   ":assets"; ":assets:scss"; ":assets:copy-styles"; ":assets:html";
   ":assets:inline"; ":watch"].

Definition task_names (packageName : string) : list string :=
  (λ suffix, packageName +:+ suffix) <$> task_suffixes.

(** The task names that a task refers to: its dependencies, the arguments
    of its [sequenceTask], and the tasks its watcher starts. *)
Definition sequence_names (arg : SequenceArg) : list string :=
  match arg with
  | TaskName name => [name]
  | TaskGroup names => names
  end.

Definition references (t : Task) : list string :=
  dep t ++
  match fn t with
  | Some (sequenceTask args) => args ≫= sequence_names
  | Some (arrow (watchFiles _ tasks)) => tasks
  | _ => []
  end.

(** The tasks of a dependency that the tasks of a package refer to. *)
Definition dependency_tasks (pkgName : string) : list string :=
  [pkgName +:+ ":build"; pkgName +:+ ":build-tests"; pkgName +:+ ":watch"].

(** ** Compiling the secondary entry points

    [getSecondaryEntryPointsForPackage] (../secondary-entry-points) and the
    compiler are not part of the sources: the entry points of a package
    and the way each [tsc] promise settles ([None] when it resolves, the
    reason when it rejects) are parameters. *)
Class Toolchain := {
  getSecondaryEntryPointsForPackage : string → list string;
  tsc_settles : string → string → option string;
}.

(** [for (const p of entryPoints) { await tsc(...); }]: the calls made, in
    order, and the reason of the rejection that ended the loop, if any. *)
Fixpoint for_await_tsc `{BuildEnv} `{Toolchain} (packageRoot : string)
    (entryPoints : list string) : list Call * option string :=
  match entryPoints with
  | [] => ([], None)
  | p :: rest =>
      let project := join [packageRoot; p; "tsconfig-build.json"] in
      let basePath := join [packageRoot; p] in
      match tsc_settles project basePath with
      | Some reason => ([tsc project basePath], Some reason)
      | None =>
          let '(calls, outcome) := for_await_tsc packageRoot rest in
          (tsc project basePath :: calls, outcome)
      end
  end.

(** [async function compileSecondaryEntryPointsEsm(packageName, packageRoot)] *)
Definition run_compileSecondaryEntryPointsEsm `{BuildEnv} `{Toolchain}
    (packageName packageRoot : string) : list Call * option string :=
  for_await_tsc packageRoot (getSecondaryEntryPointsForPackage packageName).

(** The compiler call for one entry point. *)
Definition entry_point_call `{BuildEnv} (packageRoot p : string) : Call :=
  tsc (join [packageRoot; p; "tsconfig-build.json"]) (join [packageRoot; p]).

(** A toolchain in which [cdk] has three entry points and compiling the
    second one fails. *)
Definition sample_toolchain : Toolchain :=
  {| getSecondaryEntryPointsForPackage := λ packageName,
       if decide (packageName = "cdk") then ["a11y"; "bidi"; "coercion"] else [];
     tsc_settles := λ project basePath,
       if decide (basePath = "src/cdk/bidi") then Some "TS2304" else None |}.

(** ** More sample worlds *)

(** The first option of a program, with the given selected, multiple and
    disabled flags and the given group. *)
Definition option1 (sel mul dis : bool) (grp : option ref) : MdOption :=
  {| _selected := sel; _active := false; _multiple := mul;
     _disableRipple := false; _disabled := dis; _id := "md-option-0";
     _element := host1; _changeDetectorRef := 7; group := grp;
     _isCompatibilityMode := None |}.

(** A selected option switched to multiple mode. *)
Definition w_selected_multiple : World :=
  world_of [NewOption host1 7 None None; Select 1; SetMultiple 1 true].

(** An option with its [disabled] input set, selected by [select()]. *)
Definition w_disabled_selected : World :=
  world_of [NewOption host1 7 None None; SetDisabled 1 true; Select 1].

(** What the host element of an option in a disabled group shows. *)
Definition bindings_group_disabled : HostBindings :=
  {| attr_tabindex := "-1"; class_mat_selected := false;
     class_mat_option_multiple := false; class_mat_active := false;
     host_id := "md-option-0"; attr_aria_selected := "false";
     attr_aria_disabled := "true"; class_mat_option_disabled := true |}.

(** The build task of [material], which depends on [cdk]. *)
Definition material_build_task : Task :=
  {| dep := [];
     fn := Some (sequenceTask
       [TaskName "cdk:build";
        TaskGroup ["material:build:esm"; "material:assets"];
        TaskName "material:assets:inline";
        TaskName "material:build:bundles"]) |}.

(** ** Running the methods *)

Lemma load_Some (w : World) (this : ref) (o : MdOption) :
  options w !! this = Some o → load this w = Some (o, w).
Proof. intros Hthis. unfold load. by rewrite Hthis. Qed.

Lemma load_inv (w w' : World) (this : ref) (o : MdOption) :
  load this w = Some (o, w') → options w !! this = Some o ∧ w' = w.
Proof.
  unfold load. destruct (options w !! this) as [o'|]; [|done].
  intros [= -> ->]. done.
Qed.

(** The getters read [this] and change nothing. *)
Lemma selected_inv (w w' : World) (this : ref) (b : bool) :
  selected this w = Some (b, w') →
  ∃ o, options w !! this = Some o ∧ _selected o = b ∧ w' = w.
Proof.
  unfold selected, mbind, M_bind. intros Hget.
  destruct (load this w) as [[o w1]|] eqn:E; [|done].
  apply load_inv in E as [E ->]. injection Hget as <- <-. eauto.
Qed.

Lemma multiple_inv (w w' : World) (this : ref) (b : bool) :
  multiple this w = Some (b, w') →
  ∃ o, options w !! this = Some o ∧ _multiple o = b ∧ w' = w.
Proof.
  unfold multiple, mbind, M_bind. intros Hget.
  destruct (load this w) as [[o w1]|] eqn:E; [|done].
  apply load_inv in E as [E ->]. injection Hget as <- <-. eauto.
Qed.

Lemma disabled_inv (w w' : World) (this : ref) (b : bool) :
  disabled this w = Some (b, w') →
  ∃ o, options w !! this = Some o ∧ w' = w ∧
    match group o with
    | Some g => ∃ grp, optgroups w !! g = Some grp ∧
                       b = optgroup_disabled grp || _disabled o
    | None => b = _disabled o
    end.
Proof.
  unfold disabled, mbind, M_bind. intros Hd.
  destruct (load this w) as [[o w1]|] eqn:E; [|done].
  apply load_inv in E as [E ->]. exists o. destruct (group o) as [g|].
  - unfold load_group in Hd. destruct (optgroups w !! g) as [grp|]; [|done].
    injection Hd as <- <-. eauto.
  - injection Hd as <- <-. eauto.
Qed.

Lemma selected_Some (w : World) (this : ref) (o : MdOption) :
  options w !! this = Some o → selected this w = Some (_selected o, w).
Proof. intros Hthis. unfold selected, mbind, M_bind. by rewrite (load_Some _ _ _ Hthis). Qed.

Lemma id_Some (w : World) (this : ref) (o : MdOption) :
  options w !! this = Some o → id this w = Some (_id o, w).
Proof. intros Hthis. unfold id, mbind, M_bind. by rewrite (load_Some _ _ _ Hthis). Qed.

Lemma select_Some (w : World) (this : ref) (o : MdOption) :
  options w !! this = Some o →
  select this w = Some ((), selection_set this true false o w).
Proof.
  intros Hthis. unfold select, assign, markForCheck, mbind, M_bind, load.
  rewrite Hthis. simpl. by rewrite lookup_insert_eq.
Qed.

Lemma deselect_Some (w : World) (this : ref) (o : MdOption) :
  options w !! this = Some o →
  deselect this w = Some ((), selection_set this false false o w).
Proof.
  intros Hthis. unfold deselect, assign, markForCheck, mbind, M_bind, load.
  rewrite Hthis. simpl. by rewrite lookup_insert_eq.
Qed.

Lemma selectViaInteraction_enabled (w : World) (this : ref) (o : MdOption) :
  options w !! this = Some o →
  disabled this w = Some (false, w) →
  _selectViaInteraction this w =
    Some ((), selection_set this
                (if _multiple o then negb (_selected o) else true) true o w).
Proof.
  intros Hthis Hd. unfold _selectViaInteraction, mbind, M_bind. rewrite Hd. simpl.
  unfold multiple, assign, markForCheck, mbind, M_bind, load.
  repeat (rewrite Hthis; simpl). by rewrite lookup_insert_eq.
Qed.

Lemma selectViaInteraction_disabled (w : World) (this : ref) :
  disabled this w = Some (true, w) →
  _selectViaInteraction this w = Some ((), w).
Proof.
  intros Hd. unfold _selectViaInteraction, mbind, M_bind. by rewrite Hd.
Qed.

Lemma emitted_snoc (t : list Effect) (e : Effect) :
  emitted (t ++ [e]) = emitted t ++ from_option (λ x, [x]) [] (emission e).
Proof.
  unfold emitted. rewrite omap_app. simpl. by destruct (emission e).
Qed.

Lemma emitted_selection_set (this : ref) (b userInput : bool) (o : MdOption)
    (w : World) :
  emitted (trace (selection_set this b userInput o w)) =
  emitted (trace w) ++ [(this, {| source := this; isUserInput := userInput |})].
Proof.
  simpl. rewrite !emitted_snoc. simpl. by rewrite app_nil_r.
Qed.

Lemma selected_selection_set (this : ref) (b userInput : bool) (o : MdOption)
    (w : World) :
  selected this (selection_set this b userInput o w) =
  Some (b, selection_set this b userInput o w).
Proof.
  rewrite (selected_Some _ _ (with_selected b o)); [done|].
  simpl. apply lookup_insert_eq.
Qed.

Lemma with_selected_id (o : MdOption) : with_selected (_selected o) o = o.
Proof. by destruct o. Qed.

(** ** Interactive selection *)

(** C1. An option that is not disabled, is in single-selection mode and is
    already selected stays selected when [_selectViaInteraction] is called:
    the call succeeds, [selected] still reads [true], and no field of any
    option has changed. *)
Theorem selectViaInteraction_single_idempotent (w : World) (this : ref) :
  disabled this w = Some (false, w) →
  multiple this w = Some (false, w) →
  selected this w = Some (true, w) →
  ∃ w', _selectViaInteraction this w = Some ((), w') ∧
        selected this w' = Some (true, w') ∧
        options w' = options w.
Proof.
  intros Hd Hm Hs.
  apply multiple_inv in Hm as (o & Hthis & Hm & _).
  apply selected_inv in Hs as (o' & Hthis' & Hs & _).
  assert (o' = o) as -> by congruence.
  eexists. split; [by apply selectViaInteraction_enabled|].
  rewrite Hm. split; [apply selected_selection_set|].
  simpl. rewrite <- Hs, with_selected_id. by apply insert_id.
Qed.

Lemma selectViaInteraction_single_idempotent_witness :
  ∃ w', _selectViaInteraction 1 w_selected = Some ((), w') ∧
        selected 1 w' = Some (true, w') ∧
        options w' = options w_selected.
Proof.
  apply (selectViaInteraction_single_idempotent w_selected 1);
    vm_compute; reflexivity.
Defined.

(** C2. On an option that is not disabled and is in multiple-selection
    mode, [_selectViaInteraction] negates the selected state. *)
Theorem selectViaInteraction_multiple_toggles (w : World) (this : ref)
    (b : bool) :
  disabled this w = Some (false, w) →
  multiple this w = Some (true, w) →
  selected this w = Some (b, w) →
  ∃ w', _selectViaInteraction this w = Some ((), w') ∧
        selected this w' = Some (negb b, w').
Proof.
  intros Hd Hm Hs.
  apply multiple_inv in Hm as (o & Hthis & Hm & _).
  apply selected_inv in Hs as (o' & Hthis' & Hs & _).
  assert (o' = o) as -> by congruence.
  eexists. split; [by apply selectViaInteraction_enabled|].
  rewrite Hm, Hs. apply selected_selection_set.
Qed.

Lemma selectViaInteraction_multiple_toggles_witness :
  ∃ w', _selectViaInteraction 1 w_multiple = Some ((), w') ∧
        selected 1 w' = Some (true, w').
Proof.
  apply (selectViaInteraction_multiple_toggles w_multiple 1 false);
    vm_compute; reflexivity.
Defined.

Section Keyboard.
Context `{Keycodes}.

Lemma handleKeydown_activation (w : World) (this : ref) (event : KeyboardEvent) :
  keyCode event = ENTER ∨ keyCode event = SPACE →
  _handleKeydown this event w =
  (_selectViaInteraction this;; perform (PreventDefault event)) w.
Proof.
  intros Hkey. unfold _handleKeydown.
  assert (bool_decide (keyCode event = ENTER)
          || bool_decide (keyCode event = SPACE) = true) as ->; [|done].
  apply orb_true_iff. destruct Hkey; [left | right]; by apply bool_decide_eq_true_2.
Qed.

Lemma handleKeydown_other (w : World) (this : ref) (event : KeyboardEvent) :
  ¬ (keyCode event = ENTER ∨ keyCode event = SPACE) →
  _handleKeydown this event w = Some ((), w).
Proof.
  intros Hkey. unfold _handleKeydown.
  rewrite !bool_decide_eq_false_2 by tauto. done.
Qed.

(** C3. While the [disabled] getter of an option reads [true],
    [_selectViaInteraction], a click, and an Enter or Space key press leave
    every option as it was (so [selected] reads what it read before) and
    emit no selection-change event. *)
Theorem disabled_ignores_interaction (w : World) (this : ref) :
  disabled this w = Some (true, w) →
  _selectViaInteraction this w = Some ((), w) ∧
  host_listener this click w = Some ((), w) ∧
  ∀ event : KeyboardEvent,
    keyCode event = ENTER ∨ keyCode event = SPACE →
    ∃ w', host_listener this (keydown event) w = Some ((), w') ∧
          options w' = options w ∧
          (∀ b, selected this w = Some (b, w) → selected this w' = Some (b, w')) ∧
          new_events w w' = [] ∧
          emitted (trace w') = emitted (trace w).
Proof.
  intros Hd. pose proof (selectViaInteraction_disabled _ _ Hd) as Hsel.
  split; [done|]. split; [done|]. intros event Hkey. simpl.
  rewrite handleKeydown_activation by done.
  unfold mbind, M_bind. rewrite Hsel. simpl.
  eexists. split; [done|]. simpl.
  assert (emitted (trace w ++ [PreventDefault event]) = emitted (trace w)) as Hem.
  { rewrite emitted_snoc. simpl. by rewrite app_nil_r. }
  split; [done|]. split.
  - intros b Hs. apply selected_inv in Hs as (o & Hthis & <- & _).
    by apply selected_Some.
  - unfold new_events. simpl. rewrite Hem. split; [|done].
    by rewrite drop_all.
Qed.

(** C5. The keyboard handler agrees with the specification's wording on
    every option, event and world: for Enter or Space it does what a click
    does and then calls [preventDefault] on the event, and for any other
    key code it returns at once, with no change and no [preventDefault]. *)
Theorem handleKeydown_refines_click (w : World) (this : ref)
    (event : KeyboardEvent) :
  _handleKeydown this event w = spec_keyboard_activation this event w ∧
  host_listener this (keydown event) w = spec_keyboard_activation this event w.
Proof.
  assert (_handleKeydown this event w = spec_keyboard_activation this event w);
    [|done].
  unfold spec_keyboard_activation. case_decide as Hkey.
  - rewrite handleKeydown_activation by done. simpl.
    unfold mbind, M_bind.
    by destruct (_selectViaInteraction this w) as [[[] w1]|].
  - by apply handleKeydown_other.
Qed.

End Keyboard.

Lemma disabled_ignores_interaction_witness :
  _selectViaInteraction 1 w_group_disabled = Some ((), w_group_disabled) ∧
  host_listener (H := dom_keycodes) 1 click w_group_disabled
    = Some ((), w_group_disabled) ∧
  ∀ event : KeyboardEvent,
    keyCode event = 13%Z ∨ keyCode event = 32%Z →
    ∃ w', host_listener (H := dom_keycodes) 1 (keydown event) w_group_disabled
            = Some ((), w') ∧
          options w' = options w_group_disabled ∧
          (∀ b, selected 1 w_group_disabled = Some (b, w_group_disabled) →
                selected 1 w' = Some (b, w')) ∧
          new_events w_group_disabled w' = [] ∧
          emitted (trace w') = emitted (trace w_group_disabled).
Proof.
  apply (disabled_ignores_interaction (H := dom_keycodes) w_group_disabled 1).
  vm_compute. reflexivity.
Defined.

(** ** The disabled getter *)

(** C4. The [disabled] getter of an option returns a boolean without
    changing anything, and that boolean is [true] exactly when the
    option's own [_disabled] flag is [true] or the option has a parent
    group whose [disabled] flag is [true]. *)
Theorem disabled_spec (w : World) (this : ref) (o : MdOption) :
  options w !! this = Some o →
  (∀ g, group o = Some g → is_Some (optgroups w !! g)) →
  ∃ b, disabled this w = Some (b, w) ∧
       (b = true ↔
        _disabled o = true ∨
        ∃ g grp, group o = Some g ∧ optgroups w !! g = Some grp ∧
                 optgroup_disabled grp = true).
Proof.
  intros Hthis Hgroup. unfold disabled, mbind, M_bind.
  rewrite (load_Some _ _ _ Hthis). destruct (group o) as [g|] eqn:Hg.
  - destruct (Hgroup g eq_refl) as [grp Hgrp]. unfold load_group.
    rewrite Hgrp. eexists. split; [done|].
    rewrite orb_true_iff. split.
    + intros [Hd | Hd]; [right; by exists g, grp | by left].
    + intros [Hd | (g' & grp' & [= <-] & Hgrp' & Hd)]; [by right|].
      left. congruence.
  - eexists. split; [done|]. split; [by left|].
    by intros [Hd | (g' & grp' & [=] & _)].
Qed.

Lemma disabled_spec_witness :
  ∃ b, disabled 1 w_group_disabled = Some (b, w_group_disabled) ∧
       (b = true ↔
        false = true ∨
        ∃ g grp, Some 5%positive = Some g ∧
                 optgroups w_group_disabled !! g = Some grp ∧
                 optgroup_disabled grp = true).
Proof.
  refine (disabled_spec w_group_disabled 1
            {| _selected := false; _active := false; _multiple := false;
               _disableRipple := false; _disabled := false;
               _id := "md-option-0"; _element := host1;
               _changeDetectorRef := 7; group := Some 5%positive;
               _isCompatibilityMode := None |} _ _).
  - vm_compute. reflexivity.
  - intros g [= <-]. exists {| optgroup_disabled := true |}.
    vm_compute. reflexivity.
Defined.

(** ** Programmatic selection *)

Lemma new_events_selection_set (this : ref) (b userInput : bool) (o : MdOption)
    (w : World) :
  new_events w (selection_set this b userInput o w) =
  [(this, {| source := this; isUserInput := userInput |})].
Proof.
  unfold new_events. rewrite emitted_selection_set. by rewrite drop_app_length.
Qed.

Lemma new_events_same (w : World) : new_events w w = [].
Proof. unfold new_events. by rewrite drop_all. Qed.

Lemma disabled_selection_set (this : ref) (b userInput d : bool) (o : MdOption)
    (w : World) :
  options w !! this = Some o →
  disabled this w = Some (d, w) →
  disabled this (selection_set this b userInput o w) =
  Some (d, selection_set this b userInput o w).
Proof.
  intros Hthis Hd.
  apply disabled_inv in Hd as (o' & Hthis' & _ & Hd).
  assert (o' = o) as -> by congruence.
  unfold disabled, mbind, M_bind, load. simpl. rewrite lookup_insert_eq. simpl.
  destruct (group o) as [g|].
  - destruct Hd as (grp & Hgrp & ->). unfold load_group. simpl. by rewrite Hgrp.
  - by rewrite Hd.
Qed.

(** C7. On every option, [select()] sets [selected] to [true] and
    [deselect()] sets it to [false]; each emits exactly one
    selection-change event, whose source is the option itself and whose
    [isUserInput] is [false].  The event that [_selectViaInteraction] emits
    (it emits one unless the option is disabled) has [isUserInput = true]. *)
Theorem select_deselect_emit (w : World) (this : ref) (o : MdOption) :
  options w !! this = Some o →
  (∃ w', select this w = Some ((), w') ∧
         selected this w' = Some (true, w') ∧
         new_events w w' = [(this, {| source := this; isUserInput := false |})]) ∧
  (∃ w', deselect this w = Some ((), w') ∧
         selected this w' = Some (false, w') ∧
         new_events w w' = [(this, {| source := this; isUserInput := false |})]) ∧
  (∀ d, disabled this w = Some (d, w) →
     ∃ w', _selectViaInteraction this w = Some ((), w') ∧
           new_events w w' =
             if d then []
             else [(this, {| source := this; isUserInput := true |})]).
Proof.
  intros Hthis. repeat split.
  - eexists. split; [by apply select_Some|].
    split; [apply selected_selection_set | apply new_events_selection_set].
  - eexists. split; [by apply deselect_Some|].
    split; [apply selected_selection_set | apply new_events_selection_set].
  - intros [] Hd.
    + exists w. split; [by apply selectViaInteraction_disabled|].
      apply new_events_same.
    + eexists. split; [by apply selectViaInteraction_enabled|].
      apply new_events_selection_set.
Qed.

Lemma select_deselect_emit_witness :
  (∃ w', select 1 w_multiple = Some ((), w') ∧
         selected 1 w' = Some (true, w') ∧
         new_events w_multiple w' = [(1%positive, {| source := 1; isUserInput := false |})]) ∧
  (∃ w', deselect 1 w_multiple = Some ((), w') ∧
         selected 1 w' = Some (false, w') ∧
         new_events w_multiple w' = [(1%positive, {| source := 1; isUserInput := false |})]) ∧
  (∀ d, disabled 1 w_multiple = Some (d, w_multiple) →
     ∃ w', _selectViaInteraction 1 w_multiple = Some ((), w') ∧
           new_events w_multiple w' =
             if d then []
             else [(1%positive, {| source := 1; isUserInput := true |})]).
Proof.
  refine (select_deselect_emit w_multiple 1
            {| _selected := false; _active := false; _multiple := true;
               _disableRipple := false; _disabled := false;
               _id := "md-option-0"; _element := host1;
               _changeDetectorRef := 7; group := None;
               _isCompatibilityMode := None |} _).
  vm_compute. reflexivity.
Defined.

(** C10. [select()] and [deselect()] do not look at the disabled state:
    on an option whose [disabled] getter reads [true] they still set
    [selected] (to [true] and to [false]) and still emit one
    selection-change event, and the option is still disabled afterwards;
    [_selectViaInteraction] on the same option does nothing. *)
Theorem select_deselect_ignore_disabled (w : World) (this : ref) :
  disabled this w = Some (true, w) →
  (∃ w', select this w = Some ((), w') ∧
         selected this w' = Some (true, w') ∧
         disabled this w' = Some (true, w') ∧
         new_events w w' = [(this, {| source := this; isUserInput := false |})]) ∧
  (∃ w', deselect this w = Some ((), w') ∧
         selected this w' = Some (false, w') ∧
         disabled this w' = Some (true, w') ∧
         new_events w w' = [(this, {| source := this; isUserInput := false |})]) ∧
  _selectViaInteraction this w = Some ((), w).
Proof.
  intros Hd. pose proof Hd as (o & Hthis & _)%disabled_inv. repeat split.
  - eexists. split; [by apply select_Some|].
    split; [apply selected_selection_set|].
    split; [by apply disabled_selection_set | apply new_events_selection_set].
  - eexists. split; [by apply deselect_Some|].
    split; [apply selected_selection_set|].
    split; [by apply disabled_selection_set | apply new_events_selection_set].
  - by apply selectViaInteraction_disabled.
Qed.

Lemma select_deselect_ignore_disabled_witness :
  (∃ w', select 1 w_disabled = Some ((), w') ∧
         selected 1 w' = Some (true, w') ∧
         disabled 1 w' = Some (true, w') ∧
         new_events w_disabled w' = [(1%positive, {| source := 1; isUserInput := false |})]) ∧
  (∃ w', deselect 1 w_disabled = Some ((), w') ∧
         selected 1 w' = Some (false, w') ∧
         disabled 1 w' = Some (true, w') ∧
         new_events w_disabled w' = [(1%positive, {| source := 1; isUserInput := false |})]) ∧
  _selectViaInteraction 1 w_disabled = Some ((), w_disabled).
Proof.
  apply (select_deselect_ignore_disabled w_disabled 1). vm_compute. reflexivity.
Defined.

(** ** Quiet steps *)

Lemma quiet_refl (w : World) : quiet w w.
Proof. by repeat split. Qed.

Lemma quiet_is_Some (w w' : World) (r : ref) :
  quiet w w' → (is_Some (options w' !! r) ↔ is_Some (options w !! r)).
Proof.
  intros (_ & Hid & _). specialize (Hid r).
  rewrite <- (fmap_is_Some _id (options w' !! r)),
          <- (fmap_is_Some _id (options w !! r)). by rewrite Hid.
Qed.

Lemma quiet_size (w w' : World) : quiet w w' → size (options w') = size (options w).
Proof.
  intros Hq. rewrite <- !size_dom. f_equal. apply set_eq. intros r.
  rewrite !elem_of_dom. by apply quiet_is_Some.
Qed.

Lemma quiet_trans (w1 w2 w3 : World) : quiet w1 w2 → quiet w2 w3 → quiet w1 w3.
Proof.
  intros (Hc1 & Hi1 & Hs1 & He1) (Hc2 & Hi2 & Hs2 & He2).
  repeat split; [congruence | | | congruence].
  - intros r. by rewrite Hi2.
  - intros r. by rewrite Hs2.
Qed.

Lemma keeps_ret {A : Type} (a : A) : keeps (mret a).
Proof. intros w a' w' [= _ <-]. apply quiet_refl. Qed.

Lemma keeps_bind {A B : Type} (m : M A) (k : A → M B) :
  keeps m → (∀ a, keeps (k a)) → keeps (m ≫= k).
Proof.
  intros Hm Hk w b w'. unfold mbind, M_bind.
  destruct (m w) as [[a w1]|] eqn:E; [|done].
  intros Hrun. eapply quiet_trans; [by eapply Hm | by eapply Hk].
Qed.

Lemma keeps_load (this : ref) : keeps (load this).
Proof. intros w o w' [_ ->]%load_inv. apply quiet_refl. Qed.

Lemma keeps_load_group (g : ref) : keeps (load_group g).
Proof.
  intros w grp w'. unfold load_group.
  destruct (optgroups w !! g); [|done]. intros [= _ <-]. apply quiet_refl.
Qed.

Lemma keeps_assign (this : ref) (f : MdOption → MdOption) :
  (∀ o, _id (f o) = _id o ∧ _selected (f o) = _selected o) →
  keeps (assign this f).
Proof.
  intros Hf w [] w'. unfold assign.
  destruct (options w !! this) as [o|] eqn:Hthis; [|done].
  intros [= <-]. destruct (Hf o) as [Hid Hsel].
  repeat split; simpl; try done; intros r;
    (destruct (decide (r = this)) as [->|];
      [rewrite lookup_insert_eq, Hthis; simpl; congruence
      |by rewrite lookup_insert_ne]).
Qed.

Lemma keeps_perform (e : Effect) : emission e = None → keeps (perform e).
Proof.
  intros He w [] w' [= <-]. repeat split; simpl; try done.
  rewrite emitted_snoc, He. simpl. apply app_nil_r.
Qed.

Lemma keeps_set_optgroup (g : ref) (grp : MdOptgroup) : keeps (set_optgroup g grp).
Proof. intros w [] w' [= <-]. by repeat split. Qed.

Ltac keeps_step :=
  first
    [ apply keeps_ret
    | apply keeps_load
    | apply keeps_load_group
    | apply keeps_set_optgroup
    | apply keeps_perform; reflexivity
    | apply keeps_assign; intros []; by split
    | apply keeps_bind; [|intros ?]
    | match goal with
      | |- keeps (if ?b then _ else _) => destruct b
      | |- keeps (match ?x with _ => _ end) => destruct x
      end ].

Ltac keeps_all := repeat keeps_step.

Lemma keeps_markForCheck (this : ref) : keeps (markForCheck this).
Proof. unfold markForCheck. keeps_all. Qed.

Lemma keeps_disabled (this : ref) : keeps (disabled this).
Proof. unfold disabled. keeps_all. Qed.

Lemma keeps_set_multiple (this : ref) (value : bool) :
  keeps (set_multiple this value).
Proof. unfold set_multiple, markForCheck. keeps_all. Qed.

Lemma keeps_set_disabled (this : ref) (value : bool) :
  keeps (set_disabled this value).
Proof. unfold set_disabled. keeps_all. Qed.

Lemma keeps_set_disableRipple (this : ref) (value : bool) :
  keeps (set_disableRipple this value).
Proof. unfold set_disableRipple, markForCheck. keeps_all. Qed.

Lemma keeps_focus (this : ref) : keeps (focus this).
Proof. unfold focus, _getHostElement. keeps_all. Qed.

Lemma keeps_setActiveStyles (this : ref) : keeps (setActiveStyles this).
Proof. unfold setActiveStyles, markForCheck. keeps_all. Qed.

Lemma keeps_setInactiveStyles (this : ref) : keeps (setInactiveStyles this).
Proof. unfold setInactiveStyles, markForCheck. keeps_all. Qed.

(** ** What one operation does *)

Lemma select_inv (w w' : World) (this : ref) :
  select this w = Some ((), w') →
  ∃ o, options w !! this = Some o ∧ w' = selection_set this true false o w.
Proof.
  destruct (options w !! this) as [o|] eqn:Hthis.
  - rewrite (select_Some _ _ _ Hthis). intros [= <-]. eauto.
  - unfold select, assign, mbind, M_bind. by rewrite Hthis.
Qed.

Lemma deselect_inv (w w' : World) (this : ref) :
  deselect this w = Some ((), w') →
  ∃ o, options w !! this = Some o ∧ w' = selection_set this false false o w.
Proof.
  destruct (options w !! this) as [o|] eqn:Hthis.
  - rewrite (deselect_Some _ _ _ Hthis). intros [= <-]. eauto.
  - unfold deselect, assign, mbind, M_bind. by rewrite Hthis.
Qed.

Lemma selectViaInteraction_inv (w w' : World) (this : ref) :
  _selectViaInteraction this w = Some ((), w') →
  ∃ o d, options w !! this = Some o ∧ disabled this w = Some (d, w) ∧
    w' = if d : bool then w
         else selection_set this
                (if _multiple o then negb (_selected o) else true) true o w.
Proof.
  intros Hrun. destruct (disabled this w) as [[d w1]|] eqn:Hd.
  - pose proof Hd as (o & Hthis & -> & _)%disabled_inv.
    exists o, d. split; [done|]. split; [done|]. destruct d.
    + rewrite selectViaInteraction_disabled in Hrun by done. congruence.
    + rewrite (selectViaInteraction_enabled _ _ o) in Hrun by done. congruence.
  - unfold _selectViaInteraction, mbind, M_bind in Hrun. by rewrite Hd in Hrun.
Qed.

Lemma selection_changed_set (this : ref) (b userInput : bool) (o : MdOption)
    (w : World) :
  options w !! this = Some o →
  selection_changed w (selection_set this b userInput o w).
Proof.
  intros Hthis. exists this, o, b, userInput.
  split; [done|]. split; [done|]. split; [done|]. apply emitted_selection_set.
Qed.

Lemma new_MdOption_constructed (element : ElementRef) (changeDetectorRef : ref)
    (grp : option ref) (isCompatibilityMode : option bool) (w : World) :
  ∃ w', new_MdOption element changeDetectorRef grp isCompatibilityMode w
          = Some (fresh (dom (options w)), w') ∧
        constructed w w'.
Proof.
  eexists. split; [reflexivity|]. eexists. simpl.
  split; [done|]. split; [|done].
  apply not_elem_of_dom, is_fresh.
Qed.

Section Outcome.
Context `{Keycodes}.

(** Every operation is of exactly one kind: one that asks for a
    selection-change event, and then it assigns [selected] and emits one
    event; or one that does not, and then it is quiet or a construction. *)
Lemma run_outcome (op : Op) (w w' : World) :
  run op w = Some ((), w') →
  (requests_selection op w ∧ selection_changed w w') ∨
  (¬ requests_selection op w ∧ (quiet w w' ∨ constructed w w')).
Proof.
  destruct op as [el cdr grp compat | this v | this v | this v | this | this
                 | this | this | this | this [|event] | g grp]; simpl; intros Hrun.
  - right. split; [tauto|]. right.
    destruct (new_MdOption_constructed el cdr grp compat w) as (w1 & Hnew & Hc).
    unfold mbind, M_bind in Hrun. rewrite Hnew in Hrun.
    by injection Hrun as <-.
  - right. split; [tauto|]. left. by eapply keeps_set_multiple.
  - right. split; [tauto|]. left. by eapply keeps_set_disabled.
  - right. split; [tauto|]. left. by eapply keeps_set_disableRipple.
  - left. split; [done|]. apply select_inv in Hrun as (o & Hthis & ->).
    by apply selection_changed_set.
  - left. split; [done|]. apply deselect_inv in Hrun as (o & Hthis & ->).
    by apply selection_changed_set.
  - right. split; [tauto|]. left. by eapply keeps_focus.
  - right. split; [tauto|]. left. by eapply keeps_setActiveStyles.
  - right. split; [tauto|]. left. by eapply keeps_setInactiveStyles.
  - apply selectViaInteraction_inv in Hrun as (o & [] & Hthis & Hd & ->).
    + right. split; [congruence|]. left. apply quiet_refl.
    + left. split; [done|]. by apply selection_changed_set.
  - destruct (decide (keyCode event = ENTER ∨ keyCode event = SPACE)) as [Hkey|Hkey].
    + rewrite handleKeydown_activation in Hrun by done.
      unfold mbind, M_bind in Hrun.
      destruct (_selectViaInteraction this w) as [[[] w1]|] eqn:Hsel; [|done].
      injection Hrun as <-.
      apply selectViaInteraction_inv in Hsel as (o & [] & Hthis & Hd & ->).
      * right. split; [intros [_ ?]; congruence|]. left.
        repeat split; simpl; try done.
        rewrite emitted_snoc. simpl. apply app_nil_r.
      * left. split; [done|]. exists this, o, (if _multiple o then negb (_selected o) else true), true.
        split; [done|]. split; [done|]. split; [done|]. simpl.
        rewrite !emitted_snoc. simpl. by rewrite !app_nil_r.
    + rewrite handleKeydown_other in Hrun by done. injection Hrun as <-.
      right. split; [tauto|]. left. apply quiet_refl.
  - right. split; [tauto|]. left. by eapply keeps_set_optgroup.
Qed.

End Outcome.

(** ** When a selection-change event is emitted *)

Lemma new_events_app (w w' : World) (l : list (ref * MdOptionSelectionChange)) :
  emitted (trace w') = emitted (trace w) ++ l → new_events w w' = l.
Proof. intros He. unfold new_events. by rewrite He, drop_app_length. Qed.

Lemma new_events_quiet (w w' : World) : quiet w w' → new_events w w' = [].
Proof.
  intros (_ & _ & _ & He). apply new_events_app. by rewrite app_nil_r.
Qed.

Lemma new_events_constructed (w w' : World) :
  constructed w w' → new_events w w' = [].
Proof.
  intros (o & _ & _ & _ & _ & He). apply new_events_app. by rewrite app_nil_r.
Qed.

(** C8, the claim refuted: a second [select()] on a selected option emits
    a selection-change event although [selected] keeps its value. *)
Lemma select_emits_without_toggle :
  ¬ emits_iff_toggled (H := dom_keycodes) (Select 1) w_selected.
Proof.
  intros Hclaim.
  destruct (Hclaim w_selected_again 1%positive true true) as [Hemit _];
    [vm_compute; reflexivity ..|].
  apply Hemit; [|reflexivity]. vm_compute. discriminate.
Qed.

(** C8, amended.  An operation emits a selection-change event exactly
    when it is a [select()], a [deselect()], or a click or an Enter/Space
    key press on an option that is not disabled, and then it emits exactly
    one, whose source is its emitter, whether or not [selected] changes.
    Whenever an operation changes the selected state of an option, it emits
    exactly one selection-change event, from that option. *)
Theorem selection_change_emission `{Keycodes} (op : Op) (w w' : World) :
  run op w = Some ((), w') →
  (requests_selection op w →
     ∃ this u, new_events w w' = [(this, {| source := this; isUserInput := u |})]) ∧
  (¬ requests_selection op w → new_events w w' = []) ∧
  (∀ this b b',
     selected this w = Some (b, w) → selected this w' = Some (b', w') → b ≠ b' →
     ∃ u, new_events w w' = [(this, {| source := this; isUserInput := u |})]).
Proof.
  intros Hrun.
  destruct (run_outcome op w w' Hrun)
    as [[Hreq (r & o & b0 & u & Hr & Hc & Ho & He)] | [Hreq Hstep]].
  - split; [|split].
    + intros _. exists r, u. by apply new_events_app.
    + done.
    + intros this b b' Hs Hs' Hne. exists u.
      destruct (decide (this = r)) as [->|Hthis]; [by apply new_events_app|].
      apply selected_inv in Hs as (o1 & Ho1 & <- & _).
      apply selected_inv in Hs' as (o2 & Ho2 & <- & _).
      rewrite Ho, lookup_insert_ne in Ho2 by done. congruence.
  - split; [done|]. split.
    + intros _. destruct Hstep; [by apply new_events_quiet|].
      by apply new_events_constructed.
    + intros this b b' Hs Hs' Hne. exfalso. apply Hne.
      apply selected_inv in Hs as (o1 & Ho1 & <- & _).
      apply selected_inv in Hs' as (o2 & Ho2 & <- & _).
      destruct Hstep as [(_ & _ & Hsel & _) | (o & _ & Hfresh & Ho & _)].
      * specialize (Hsel this). rewrite Ho1, Ho2 in Hsel. simpl in Hsel.
        congruence.
      * rewrite Ho, lookup_insert_ne in Ho2 by congruence. congruence.
Qed.

Lemma selection_change_emission_witness :
  (requests_selection (H := dom_keycodes) (Select 1) w_selected →
     ∃ this u, new_events w_selected w_selected_again
               = [(this, {| source := this; isUserInput := u |})]) ∧
  (¬ requests_selection (H := dom_keycodes) (Select 1) w_selected →
     new_events w_selected w_selected_again = []) ∧
  (∀ this b b',
     selected this w_selected = Some (b, w_selected) →
     selected this w_selected_again = Some (b', w_selected_again) → b ≠ b' →
     ∃ u, new_events w_selected w_selected_again
          = [(this, {| source := this; isUserInput := u |})]).
Proof.
  apply (selection_change_emission (H := dom_keycodes) (Select 1)).
  vm_compute. reflexivity.
Defined.

(** ** Identifiers *)

Lemma id_inv (w w' : World) (this : ref) (i : string) :
  id this w = Some (i, w') → ∃ o, options w !! this = Some o ∧ _id o = i ∧ w' = w.
Proof.
  unfold id, mbind, M_bind. intros Hget.
  destruct (load this w) as [[o w1]|] eqn:E; [|done].
  apply load_inv in E as [E ->]. injection Hget as <- <-. eauto.
Qed.



Lemma binary64_round_exact (x : N) : (x ≤ 2 ^ 53)%N → binary64_round x = x.
Proof.
  intros Hx. unfold binary64_round. by rewrite (proj2 (N.leb_le _ _) Hx).
Qed.

Lemma binary64_round_saturated : binary64_round (2 ^ 53 + 1) = (2 ^ 53)%N.
Proof. by vm_compute. Qed.

(** Rounding above 2^53: odd numbers are ties between their two even
    neighbours and go to the one with the even significand. *)
Example binary64_round_ties :
  binary64_round (2 ^ 53 + 1) = (2 ^ 53)%N ∧
  binary64_round (2 ^ 53 + 2) = (2 ^ 53 + 2)%N ∧
  binary64_round (2 ^ 53 + 3) = (2 ^ 53 + 4)%N.
Proof. by vm_compute. Qed.



(** A construction keeps the counter equal to the number of options,
    capped at 2^53. *)
Lemma counter_constructed (w w' : World) :
  constructed w w' →
  _uniqueIdCounter w = N.min (N.of_nat (size (options w))) (2 ^ 53) →
  _uniqueIdCounter w' = N.min (N.of_nat (size (options w'))) (2 ^ 53).
Proof.
  intros (o & Hc & Hfresh & Ho & _) Hcount.
  rewrite Hc, Ho, map_size_insert_None, Hcount by done.
  destruct (decide (N.of_nat (size (options w)) < 2 ^ 53)%N) as [Hlt | Hge].
  - rewrite N.min_l by lia. rewrite binary64_round_exact by lia. lia.
  - rewrite N.min_r by lia. rewrite binary64_round_saturated. lia.
Qed.

Section Identifiers.
Context `{Keycodes}.

Lemma counter_step (op : Op) (w w' : World) :
  run op w = Some ((), w') →
  _uniqueIdCounter w = N.min (N.of_nat (size (options w))) (2 ^ 53) →
  _uniqueIdCounter w' = N.min (N.of_nat (size (options w'))) (2 ^ 53).
Proof.
  intros Hrun Hcount.
  destruct (run_outcome op w w' Hrun)
    as [[_ (this & o & b & u & Hthis & Hc & Ho & _)] | [_ [Hq | Hnew]]].
  - rewrite Hc, Ho, Hcount. f_equal. f_equal. symmetry.
    by eapply map_size_insert_Some.
  - rewrite (quiet_size w w' Hq). by destruct Hq as [-> _].
  - by apply (counter_constructed w).
Qed.





End Identifiers.


(** At a counter of 2^53, two constructions in a row: both options get the
    same id and the counter stays where it is. *)
Example saturated_ids_repeat :
  ∃ w1 w2,
    new_MdOption host1 7 None None w_saturated = Some (1%positive, w1) ∧
    new_MdOption host2 8 None None w1 = Some (2%positive, w2) ∧
    id 1 w2 = Some ("md-option-9007199254740992", w2) ∧
    id 2 w2 = Some ("md-option-9007199254740992", w2) ∧
    _uniqueIdCounter w2 = 9007199254740992%N.
Proof.
  eexists _, _. split; [vm_compute; reflexivity|].
  repeat split; vm_compute; reflexivity.
Qed.

Lemma w_two_reachable : reachable (H := dom_keycodes) w_two.
Proof.
  eapply (reachable_run _ _ (NewOption host2 8 None None)).
  - eapply (reachable_run _ _ (NewOption host1 7 None None)).
    + apply reachable_initial.
    + vm_compute. reflexivity.
  - vm_compute. reflexivity.
Defined.


(** ** The package build tasks *)

Lemma task_name_ne (packageName suffix1 suffix2 : string) :
  suffix1 ≠ suffix2 → packageName +:+ suffix1 ≠ packageName +:+ suffix2.
Proof. intros Hne Heq. by apply Hne, (inj (String.append packageName)). Qed.

Ltac find_task :=
  repeat (rewrite lookup_insert_ne by (by apply task_name_ne));
  apply lookup_insert_eq.

(** C9. For every package name, list of dependencies and options,
    [createPackageBuildTasks] registers the task [<packageName>:build] as
    the sequence: the [:build] task of each dependency in list order, then
    [<packageName>:build:esm] and [<packageName>:assets] together, then
    [<packageName>:assets:inline], then [<packageName>:build:bundles].  It
    also registers, under their names, the clean build (the external
    [clean] task, then the build), the compile step (the TypeScript
    compiler), the asset copy (gulp's [src] piped to [dest]), the inline
    step, the bundle step and the watch step (which depends on the watch
    tasks of the dependencies), each a call into an imported tool. *)
Theorem createPackageBuildTasks_build `{BuildEnv} (packageName : string)
    (dependencies : option (list string)) (options : option PackageTaskOptions)
    (tasks : gmap string Task) :
  let registered :=
    (createPackageBuildTasks packageName dependencies options tasks).2 in
  let packageRoot :=
    join [packagesDir;
          if decide (packageName = "material") then "lib" else packageName] in
  let packageOut := join [outputDir; "packages"; packageName] in
  let useSecondary :=
    default false (options ≫= useSecondaryEntryPoints) in
  registered !! (packageName +:+ ":build") =
    Some {| dep := [];
            fn := Some (sequenceTask
              ((TaskName <$> ((λ pkgName, pkgName +:+ ":build")
                                <$> default [] dependencies))
               ++ [TaskGroup [packageName +:+ ":build:esm";
                              packageName +:+ ":assets"];
                   TaskName (packageName +:+ ":assets:inline");
                   TaskName (packageName +:+ ":build:bundles")])) |} ∧
  registered !! (packageName +:+ ":clean-build") =
    Some {| dep := [];
            fn := Some (sequenceTask
              [TaskName "clean"; TaskName (packageName +:+ ":build")]) |} ∧
  registered !! (packageName +:+ ":build:esm") =
    Some {| dep := [];
            fn := Some (arrow
              (if useSecondary then
                 Promise_all
                   [compileSecondaryEntryPointsEsm packageName packageRoot;
                    tsc (join [packageRoot; "tsconfig-build.json"]) packageRoot]
               else tsc (join [packageRoot; "tsconfig-build.json"]) packageRoot)) |} ∧
  registered !! (packageName +:+ ":assets:copy-styles") =
    Some {| dep := [];
            fn := Some (arrow
              (src_pipe_dest (join [packageRoot; "**/*.+(scss|css)"]) None
                 packageOut)) |} ∧
  registered !! (packageName +:+ ":assets:inline") =
    Some {| dep := [];
            fn := Some (arrow (inlineResourcesForDirectory packageOut)) |} ∧
  registered !! (packageName +:+ ":build:bundles") =
    Some {| dep := [];
            fn := Some (arrow
              (if useSecondary then
                 Promise_all
                   [buildPrimaryEntryPointBundles
                      (join [packageOut; "index.js"]) packageName;
                    buildAllSecondaryEntryPointBundles "cdk"]
               else buildPrimaryEntryPointBundles
                      (join [packageOut; "index.js"]) packageName)) |} ∧
  registered !! (packageName +:+ ":watch") =
    Some {| dep := (λ pkgName, pkgName +:+ ":watch") <$> default [] dependencies;
            fn := Some (arrow
              (watchFiles (join [packageRoot; "**/*.+(ts|scss|html)"])
                 [packageName +:+ ":build"])) |}.
Proof.
  intros registered packageRoot packageOut useSecondary.
  assert (useSecondary =
          default false (useSecondaryEntryPoints
            (default {| useSecondaryEntryPoints := None |} options))) as Huse.
  { by destruct options. }
  subst registered. unfold createPackageBuildTasks, task, mbind, Gulp_bind.
  cbn [snd]. rewrite <- Huse.
  repeat split; find_task.
Qed.

(** The build of the package [material], which depends on [cdk]: the path
    of its sources is [lib], and its build runs the build of [cdk] first. *)
Example material_build :
  (createPackageBuildTasks (H := sample_env) "material" (Some ["cdk"]) None ∅).2
    !! "material:build" =
  Some {| dep := [];
          fn := Some (sequenceTask
            [TaskName "cdk:build";
             TaskGroup ["material:build:esm"; "material:assets"];
             TaskName "material:assets:inline";
             TaskName "material:build:bundles"]) |} ∧
  (createPackageBuildTasks (H := sample_env) "material" (Some ["cdk"]) None ∅).2
    !! "material:build:esm" =
  Some {| dep := [];
          fn := Some (arrow (tsc "src/lib/tsconfig-build.json" "src/lib")) |}.
Proof. split; vm_compute; reflexivity. Qed.

(** The first two options of a program get the ids [md-option-0] and
    [md-option-1]. *)
Example first_ids :
  id 1 w_two = Some ("md-option-0", w_two) ∧
  id 2 w_two = Some ("md-option-1", w_two).
Proof. split; vm_compute; reflexivity. Qed.

(** A click selects an option; in single mode a second click keeps it
    selected and in multiple mode a second click deselects it. *)
Example two_clicks :
  (run_all (H := dom_keycodes)
     [NewOption host1 7 None None; Host 1 click; Host 1 click] initial
     ≫= λ w, selected 1 w) ≫= (λ r, Some r.1) = Some true ∧
  (run_all (H := dom_keycodes)
     [NewOption host1 7 None None; SetMultiple 1 true;
      Host 1 (keydown {| keyCode := 13 |}); Host 1 (keydown {| keyCode := 32 |})]
     initial
     ≫= λ w, selected 1 w) ≫= (λ r, Some r.1) = Some false.
Proof. split; vm_compute; reflexivity. Qed.

(** ** The fields an operation writes *)

Lemma writes_refl (fs : list Field) (o : MdOption) : writes fs o o.
Proof. by repeat split. Qed.

Lemma writes_trans (fs : list Field) (o1 o2 o3 : MdOption) :
  writes fs o1 o2 → writes fs o2 o3 → writes fs o1 o3.
Proof.
  intros (Hi & He & Hc & Hg & Hm & Hs & Ha & Hmu & Hr & Hd)
         (Hi' & He' & Hc' & Hg' & Hm' & Hs' & Ha' & Hmu' & Hr' & Hd').
  repeat split; try congruence; intros Hin.
  - by rewrite Hs', Hs.
  - by rewrite Ha', Ha.
  - by rewrite Hmu', Hmu.
  - by rewrite Hr', Hr.
  - by rewrite Hd', Hd.
Qed.

Lemma touches_refl (this : ref) (fs : list Field) (w : World) :
  touches this fs w w.
Proof.
  repeat split. destruct (options w !! this) as [o|] eqn:Hthis; [|done].
  exists o. split; [done | apply writes_refl].
Qed.

Lemma touches_trans (this : ref) (fs : list Field) (w1 w2 w3 : World) :
  touches this fs w1 w2 → touches this fs w2 w3 → touches this fs w1 w3.
Proof.
  intros (Hc & Hg & Hother & Hthis) (Hc' & Hg' & Hother' & Hthis').
  split; [congruence|]. split; [congruence|]. split.
  - intros r Hne. by rewrite Hother', Hother.
  - destruct (options w1 !! this) as [o1|].
    + destruct Hthis as (o2 & Ho2 & Hw). rewrite Ho2 in Hthis'.
      destruct Hthis' as (o3 & Ho3 & Hw'). exists o3.
      split; [done | by eapply writes_trans].
    + by rewrite Hthis in Hthis'.
Qed.

Lemma touching_ret {A : Type} (this : ref) (fs : list Field) (a : A) :
  touching this fs (mret a).
Proof. intros w a' w' [= _ <-]. apply touches_refl. Qed.

Lemma touching_bind {A B : Type} (this : ref) (fs : list Field)
    (m : M A) (k : A → M B) :
  touching this fs m → (∀ a, touching this fs (k a)) → touching this fs (m ≫= k).
Proof.
  intros Hm Hk w b w'. unfold mbind, M_bind.
  destruct (m w) as [[a w1]|] eqn:E; [|done].
  intros Hrun. eapply touches_trans; [by eapply Hm | by eapply Hk].
Qed.

Lemma touching_load (this r : ref) (fs : list Field) : touching this fs (load r).
Proof. intros w o w' [_ ->]%load_inv. apply touches_refl. Qed.

Lemma touching_load_group (this g : ref) (fs : list Field) :
  touching this fs (load_group g).
Proof.
  intros w grp w'. unfold load_group.
  destruct (optgroups w !! g); [|done]. intros [= _ <-]. apply touches_refl.
Qed.

Lemma touching_perform (this : ref) (fs : list Field) (e : Effect) :
  touching this fs (perform e).
Proof.
  intros w [] w' [= <-]. repeat split. simpl.
  destruct (options w !! this) as [o|] eqn:Hthis; [|done].
  exists o. split; [done | apply writes_refl].
Qed.

Lemma touching_assign (this : ref) (fs : list Field) (f : MdOption → MdOption) :
  (∀ o, writes fs o (f o)) → touching this fs (assign this f).
Proof.
  intros Hf w [] w'. unfold assign.
  destruct (options w !! this) as [o|] eqn:Hthis; [|done].
  intros [= <-]. repeat split; simpl.
  - intros r Hne. by rewrite lookup_insert_ne.
  - rewrite Hthis. exists (f o). split; [apply lookup_insert_eq | apply Hf].
Qed.

Ltac writes_field :=
  intros []; repeat split; simpl; try done;
  intros Hin; exfalso; apply Hin; apply list_elem_of_singleton; reflexivity.

Ltac touching_step :=
  first
    [ apply touching_ret
    | apply touching_load
    | apply touching_load_group
    | apply touching_perform
    | apply touching_assign; writes_field
    | apply touching_bind; [|intros ?]
    | match goal with
      | |- touching _ _ (if ?b then _ else _) => destruct b
      | |- touching _ _ (match ?x with _ => _ end) => destruct x
      end ].

Ltac touching_all := repeat touching_step.

Lemma touching_disabled (this r : ref) (fs : list Field) :
  touching this fs (disabled r).
Proof. unfold disabled. touching_all. Qed.

Lemma touching_set_multiple (this : ref) (value : bool) :
  touching this [F_multiple] (set_multiple this value).
Proof. unfold set_multiple, markForCheck. touching_all. Qed.

Lemma touching_set_disabled (this : ref) (value : bool) :
  touching this [F_disabled] (set_disabled this value).
Proof. unfold set_disabled. touching_all. Qed.

Lemma touching_set_disableRipple (this : ref) (value : bool) :
  touching this [F_disableRipple] (set_disableRipple this value).
Proof. unfold set_disableRipple, markForCheck. touching_all. Qed.

Lemma touching_select (this : ref) : touching this [F_selected] (select this).
Proof. unfold select, markForCheck, _emitSelectionChangeEvent. touching_all. Qed.

Lemma touching_deselect (this : ref) : touching this [F_selected] (deselect this).
Proof. unfold deselect, markForCheck, _emitSelectionChangeEvent. touching_all. Qed.

Lemma touching_focus (this : ref) : touching this [] (focus this).
Proof. unfold focus, _getHostElement. touching_all. Qed.

Lemma touching_setActiveStyles (this : ref) :
  touching this [F_active] (setActiveStyles this).
Proof. unfold setActiveStyles, markForCheck. touching_all. Qed.

Lemma touching_setInactiveStyles (this : ref) :
  touching this [F_active] (setInactiveStyles this).
Proof. unfold setInactiveStyles, markForCheck. touching_all. Qed.

Lemma touching_selectViaInteraction (this : ref) :
  touching this [F_selected] (_selectViaInteraction this).
Proof.
  unfold _selectViaInteraction, multiple, markForCheck, _emitSelectionChangeEvent.
  apply touching_bind; [apply touching_disabled|]. intros d. touching_all.
Qed.

Lemma touching_handleKeydown `{Keycodes} (this : ref) (event : KeyboardEvent) :
  touching this [F_selected] (_handleKeydown this event).
Proof.
  unfold _handleKeydown.
  destruct (bool_decide (keyCode event = ENTER) || bool_decide (keyCode event = SPACE)).
  - apply touching_bind; [apply touching_selectViaInteraction|].
    intros _. apply touching_perform.
  - apply touching_ret.
Qed.

Section Frame.
Context `{Keycodes}.

Lemma run_touches (op : Op) (this : ref) (fs : list Field) (w w' : World) :
  target op = Some (this, fs) → run op w = Some ((), w') → touches this fs w w'.
Proof.
  destruct op as [el cdr grp compat | r v | r v | r v | r | r
                 | r | r | r | r [|event] | g grp]; simpl;
    intros [= <- <-] Hrun.
  - by eapply touching_set_multiple.
  - by eapply touching_set_disabled.
  - by eapply touching_set_disableRipple.
  - by eapply touching_select.
  - by eapply touching_deselect.
  - by eapply touching_focus.
  - by eapply touching_setActiveStyles.
  - by eapply touching_setInactiveStyles.
  - by eapply touching_selectViaInteraction.
  - by eapply touching_handleKeydown.
Qed.

Lemma run_frame_options (op : Op) (w w' : World) (r : ref) (o : MdOption) :
  run op w = Some ((), w') →
  options w !! r = Some o →
  ∃ o', options w' !! r = Some o' ∧
    match target op with
    | Some (this, fs) => if decide (r = this) then writes fs o o' else o' = o
    | None => o' = o
    end.
Proof.
  intros Hrun Hr. destruct (target op) as [[this fs]|] eqn:Htarget.
  - destruct (run_touches op this fs w w' Htarget Hrun) as (_ & _ & Hother & Hthis).
    destruct (decide (r = this)) as [->|Hne].
    + by rewrite Hr in Hthis.
    + exists o. by rewrite Hother.
  - destruct op as [el cdr grp compat | | | | | | | | | | g grp]; try done.
    + destruct (new_MdOption_constructed el cdr grp compat w)
        as (w1 & Hnew & o1 & _ & Hfresh & Ho & _).
      simpl in Hrun. unfold mbind, M_bind in Hrun. rewrite Hnew in Hrun.
      injection Hrun as <-.
      exists o. split; [|done]. rewrite Ho, lookup_insert_ne; [done|]. congruence.
    + injection Hrun as <-. by exists o.
Qed.

Lemma run_frame_groups (op : Op) (w w' : World) :
  run op w = Some ((), w') →
  match op with
  | GroupInput g grp => optgroups w' = <[g := grp]> (optgroups w)
  | _ => optgroups w' = optgroups w
  end.
Proof.
  intros Hrun. destruct (target op) as [[this fs]|] eqn:Htarget.
  - destruct (run_touches op this fs w w' Htarget Hrun) as (_ & Hg & _).
    by destruct op.
  - destruct op as [el cdr grp compat | | | | | | | | | | g grp]; try done.
    + simpl in Hrun. unfold new_MdOption, mbind, M_bind in Hrun.
      by injection Hrun as <-.
    + by injection Hrun as <-.
Qed.

(** X1. Every operation leaves every existing option in place and writes at
    most its own field of the option it is called on: the setters their
    one field, [select], [deselect] and the host events [_selected], the
    two style methods [_active], [focus] nothing.  Every other option, and
    every option during a construction or a group update, keeps all its
    fields; the groups change only by a group update. *)
Theorem operation_frame (op : Op) (w w' : World) (r : ref) (o : MdOption) :
  run op w = Some ((), w') →
  options w !! r = Some o →
  (∃ o', options w' !! r = Some o' ∧
     match target op with
     | Some (this, fs) => if decide (r = this) then writes fs o o' else o' = o
     | None => o' = o
     end) ∧
  match op with
  | GroupInput g grp => optgroups w' = <[g := grp]> (optgroups w)
  | _ => optgroups w' = optgroups w
  end.
Proof.
  intros Hrun Hr. split.
  - by apply (run_frame_options op w).
  - by apply (run_frame_groups op w).
Qed.

(** X2. The id of an option never changes: whatever operation runs, the
    [id] getter of an existing option reads afterwards what it read
    before. *)
Theorem id_stable (op : Op) (w w' : World) (r : ref) (i : string) :
  run op w = Some ((), w') →
  id r w = Some (i, w) →
  id r w' = Some (i, w').
Proof.
  intros Hrun (o & Hr & <- & _)%id_inv.
  destruct (run_frame_options op w w' r o Hrun Hr) as (o' & Hr' & Hfields).
  rewrite (id_Some _ _ _ Hr'). f_equal. f_equal.
  destruct (target op) as [[this fs]|]; [|by subst].
  destruct (decide (r = this)); [by destruct Hfields | by subst].
Qed.

(** X3. Only the [disabled] input of an option and the inputs of a group
    change what the [disabled] getter reads: across any other operation,
    on this or any other option, it reads the same. *)
Theorem disabled_stable (op : Op) (w w' : World) (r : ref) (d : bool) :
  (∀ this value, op ≠ SetDisabled this value) →
  (∀ g grp, op ≠ GroupInput g grp) →
  run op w = Some ((), w') →
  disabled r w = Some (d, w) →
  disabled r w' = Some (d, w').
Proof.
  intros Hset Hgroup Hrun (o & Hr & _ & Hd)%disabled_inv.
  destruct (run_frame_options op w w' r o Hrun Hr) as (o' & Hr' & Hfields).
  pose proof (run_frame_groups op w w' Hrun) as Hg.
  assert (optgroups w' = optgroups w) as Hgroups.
  { destruct op; try done. by destruct (Hgroup g grp). }
  assert (group o' = group o ∧ _disabled o' = _disabled o) as [Hgo Hdo].
  { destruct (target op) as [[this fs]|] eqn:Htarget; [|by subst].
    destruct (decide (r = this)) as [->|]; [|by subst].
    destruct Hfields as (_ & _ & _ & Hgo & _ & _ & _ & _ & _ & Hdis).
    split; [done|]. apply Hdis. intros Hin.
    destruct op; simpl in Htarget; simplify_eq;
      try (by apply list_elem_of_singleton in Hin);
      try (by apply elem_of_nil in Hin).
    by destruct (Hset this value). }
  unfold disabled, mbind, M_bind. rewrite (load_Some _ _ _ Hr'), Hgo.
  destruct (group o) as [g|].
  - destruct Hd as (grp & Hgrp & ->). unfold load_group.
    by rewrite Hgroups, Hgrp, Hdo.
  - by rewrite Hdo, Hd.
Qed.

End Frame.

(** ** Inputs and styles *)

Lemma multiple_Some (w : World) (this : ref) (o : MdOption) :
  options w !! this = Some o → multiple this w = Some (_multiple o, w).
Proof. intros Hthis. unfold multiple, mbind, M_bind. by rewrite (load_Some _ _ _ Hthis). Qed.

Lemma active_Some (w : World) (this : ref) (o : MdOption) :
  options w !! this = Some o → active this w = Some (_active o, w).
Proof. intros Hthis. unfold active, mbind, M_bind. by rewrite (load_Some _ _ _ Hthis). Qed.

Lemma disableRipple_Some (w : World) (this : ref) (o : MdOption) :
  options w !! this = Some o → disableRipple this w = Some (_disableRipple o, w).
Proof.
  intros Hthis. unfold disableRipple, mbind, M_bind.
  by rewrite (load_Some _ _ _ Hthis).
Qed.

Lemma disabled_Some (w : World) (this : ref) (o : MdOption) :
  options w !! this = Some o →
  disabled this w =
    match group o with
    | Some g =>
        match optgroups w !! g with
        | Some grp => Some (optgroup_disabled grp || _disabled o, w)
        | None => None
        end
    | None => Some (_disabled o, w)
    end.
Proof.
  intros Hthis. unfold disabled, mbind, M_bind. rewrite (load_Some _ _ _ Hthis).
  destruct (group o) as [g|]; [|done]. unfold load_group.
  by destruct (optgroups w !! g).
Qed.

(** X4. Setting [multiple] makes the getter read the new value.  Change
    detection is notified once if the value differs from the old one, and
    if it is the same nothing at all happens; the selected state is not
    touched either way. *)
Theorem set_multiple_spec (w : World) (this : ref) (o : MdOption) (value : bool) :
  options w !! this = Some o →
  ∃ w', set_multiple this value w = Some ((), w') ∧
        multiple this w' = Some (value, w') ∧
        selected this w' = Some (_selected o, w') ∧
        (value = _multiple o → w' = w) ∧
        (value ≠ _multiple o →
           trace w' = trace w ++ [MarkForCheck (_changeDetectorRef o)]).
Proof.
  intros Hthis. unfold set_multiple, mbind, M_bind.
  rewrite (load_Some _ _ _ Hthis).
  destruct (eqb value (_multiple o)) eqn:Heq; simpl.
  - apply eqb_prop in Heq. exists w. split; [done|].
    rewrite (multiple_Some _ _ _ Hthis), (selected_Some _ _ _ Hthis), Heq.
    by repeat split.
  - apply eqb_false_iff in Heq. unfold assign, markForCheck, mbind, M_bind, load.
    rewrite Hthis. simpl. rewrite lookup_insert_eq. simpl.
    eexists. split; [done|].
    rewrite (multiple_Some _ _ (with_multiple value o)),
            (selected_Some _ _ (with_multiple value o))
      by (simpl; apply lookup_insert_eq).
    by repeat split.
Qed.

(** X5. Setting [disableRipple] makes the getter read the new value and
    notifies change detection exactly once, also when the value is the one
    the option already had. *)
Theorem set_disableRipple_spec (w : World) (this : ref) (o : MdOption)
    (value : bool) :
  options w !! this = Some o →
  ∃ w', set_disableRipple this value w = Some ((), w') ∧
        disableRipple this w' = Some (value, w') ∧
        trace w' = trace w ++ [MarkForCheck (_changeDetectorRef o)].
Proof.
  intros Hthis. unfold set_disableRipple, assign, markForCheck, mbind, M_bind, load.
  rewrite Hthis. simpl. rewrite lookup_insert_eq. simpl.
  eexists. split; [done|].
  rewrite (disableRipple_Some _ _ (with_disableRipple value o))
    by (simpl; apply lookup_insert_eq).
  done.
Qed.


(** X7. [setActiveStyles] makes the option active and a second call does
    nothing at all; [setInactiveStyles] then makes it inactive and a second
    call of that does nothing at all.  Change detection is notified only by
    a call that changes the active state. *)
Theorem active_styles_spec (w : World) (this : ref) (o : MdOption) :
  options w !! this = Some o →
  ∃ w1 w2,
    setActiveStyles this w = Some ((), w1) ∧
    active this w1 = Some (true, w1) ∧
    setActiveStyles this w1 = Some ((), w1) ∧
    trace w1 = (if _active o then trace w
                else trace w ++ [MarkForCheck (_changeDetectorRef o)]) ∧
    setInactiveStyles this w1 = Some ((), w2) ∧
    active this w2 = Some (false, w2) ∧
    setInactiveStyles this w2 = Some ((), w2) ∧
    trace w2 = trace w1 ++ [MarkForCheck (_changeDetectorRef o)].
Proof.
  intros Hthis.
  assert (∃ w1 o1, setActiveStyles this w = Some ((), w1) ∧
            options w1 !! this = Some o1 ∧ _active o1 = true ∧
            _changeDetectorRef o1 = _changeDetectorRef o ∧
            trace w1 = (if _active o then trace w
                        else trace w ++ [MarkForCheck (_changeDetectorRef o)]))
    as (w1 & o1 & Hrun1 & Ho1 & Hact1 & Hcdr1 & Htrace1).
  { unfold setActiveStyles, mbind, M_bind. rewrite (load_Some _ _ _ Hthis).
    destruct (_active o) eqn:Hact; simpl.
    - by exists w, o.
    - unfold assign, markForCheck, mbind, M_bind, load.
      rewrite Hthis. simpl. rewrite lookup_insert_eq. simpl.
      eexists _, (with_active true o). split; [done|]. simpl.
      by rewrite lookup_insert_eq. }
  assert (setActiveStyles this w1 = Some ((), w1)) as Hagain1.
  { unfold setActiveStyles, mbind, M_bind.
    by rewrite (load_Some _ _ _ Ho1), Hact1. }
  assert (∃ w2 o2, setInactiveStyles this w1 = Some ((), w2) ∧
            options w2 !! this = Some o2 ∧ _active o2 = false ∧
            trace w2 = trace w1 ++ [MarkForCheck (_changeDetectorRef o)])
    as (w2 & o2 & Hrun2 & Ho2 & Hact2 & Htrace2).
  { unfold setInactiveStyles, mbind, M_bind.
    rewrite (load_Some _ _ _ Ho1), Hact1.
    unfold assign, markForCheck, mbind, M_bind, load.
    rewrite Ho1. simpl. rewrite lookup_insert_eq. simpl.
    eexists _, (with_active false o1). split; [done|]. simpl.
    by rewrite lookup_insert_eq, Hcdr1. }
  exists w1, w2. split; [done|].
  split; [by rewrite (active_Some _ _ _ Ho1), Hact1|].
  split; [done|]. split; [done|]. split; [done|].
  split; [by rewrite (active_Some _ _ _ Ho2), Hact2|].
  split; [|done].
  unfold setInactiveStyles, mbind, M_bind.
  by rewrite (load_Some _ _ _ Ho2), Hact2.
Qed.

(** ** The host bindings *)

(** X8. Evaluating the host bindings changes nothing, and what they show
    hangs together: the tab index is ["-1"] exactly when [aria-disabled] is
    ["true"], exactly when the class [mat-option-disabled] is set, and
    otherwise the tab index is ["0"] and [aria-disabled] is ["false"];
    [aria-selected] is ["true"] exactly when the class [mat-selected] is
    set; and the element id is the id of the option. *)
Theorem host_bindings_consistent (w w' : World) (this : ref) (b : HostBindings) :
  host_bindings this w = Some (b, w') →
  w' = w ∧
  disabled this w = Some (class_mat_option_disabled b, w) ∧
  selected this w = Some (class_mat_selected b, w) ∧
  id this w = Some (host_id b, w) ∧
  attr_tabindex b = (if class_mat_option_disabled b then "-1" else "0") ∧
  attr_aria_disabled b = (if class_mat_option_disabled b then "true" else "false") ∧
  attr_aria_selected b = (if class_mat_selected b then "true" else "false") ∧
  (attr_tabindex b = "-1" ↔ attr_aria_disabled b = "true").
Proof.
  unfold host_bindings, _getTabIndex, mbind, M_bind. intros Hrun.
  destruct (disabled this w) as [[d w1]|] eqn:Hd; [|done].
  pose proof Hd as (o & Hthis & -> & _)%disabled_inv.
  simpl in Hrun.
  repeat (rewrite ?(selected_Some _ _ _ Hthis), ?(multiple_Some _ _ _ Hthis),
                  ?(active_Some _ _ _ Hthis), ?(id_Some _ _ _ Hthis), ?Hd in Hrun;
          simpl in Hrun).
  injection Hrun as <- <-. simpl.
  rewrite (selected_Some _ _ _ Hthis), (id_Some _ _ _ Hthis).
  repeat split; try done; by destruct d.
Qed.

(** ** Construction *)

(** X9. A new option is not selected, not active, in single-selection
    mode and has ripples enabled; it is disabled exactly when it was given
    a group whose [disabled] flag is set.  Constructing it calls nothing in
    the framework. *)
Theorem new_MdOption_initial (w : World) (element : ElementRef)
    (changeDetectorRef : ref) (grp : option ref)
    (isCompatibilityMode : option bool) :
  ∃ this w',
    new_MdOption element changeDetectorRef grp isCompatibilityMode w
      = Some (this, w') ∧
    selected this w' = Some (false, w') ∧
    active this w' = Some (false, w') ∧
    multiple this w' = Some (false, w') ∧
    disableRipple this w' = Some (false, w') ∧
    trace w' = trace w ∧
    optgroups w' = optgroups w ∧
    disabled this w' =
      match grp with
      | Some g =>
          match optgroups w !! g with
          | Some group => Some (optgroup_disabled group, w')
          | None => None
          end
      | None => Some (false, w')
      end.
Proof.
  set (o := {| _selected := false; _active := false; _multiple := false;
               _disableRipple := false; _disabled := false;
               _id := "md-option-" +:+ pretty (_uniqueIdCounter w);
               _element := element; _changeDetectorRef := changeDetectorRef;
               group := grp; _isCompatibilityMode := isCompatibilityMode |}).
  set (w' := {| _uniqueIdCounter := binary64_round (_uniqueIdCounter w + 1);
                options := <[fresh (dom (options w)) := o]> (options w);
                optgroups := optgroups w; trace := trace w |}).
  exists (fresh (dom (options w))), w'. split; [reflexivity|].
  assert (options w' !! fresh (dom (options w)) = Some o) as Hthis
    by apply lookup_insert_eq.
  rewrite (selected_Some _ _ _ Hthis), (active_Some _ _ _ Hthis),
          (multiple_Some _ _ _ Hthis), (disableRipple_Some _ _ _ Hthis),
          (disabled_Some _ _ _ Hthis).
  repeat split. simpl. destruct grp as [g|]; [|done].
  destruct (optgroups w !! g) as [group|]; [|done].
  by rewrite orb_false_r.
Qed.

(** ** Two interactions in a row *)

Lemma with_selected_twice (b b' : bool) (o : MdOption) :
  with_selected b (with_selected b' o) = with_selected b o.
Proof. done. Qed.

(** X10. In multiple-selection mode, two interactive selections in a row
    on an option that is not disabled put every option back as it was, and
    emit two selection-change events from the option, both marked as user
    input. *)
Theorem selectViaInteraction_twice (w : World) (this : ref) :
  disabled this w = Some (false, w) →
  multiple this w = Some (true, w) →
  ∃ w1 w2,
    _selectViaInteraction this w = Some ((), w1) ∧
    _selectViaInteraction this w1 = Some ((), w2) ∧
    options w2 = options w ∧
    new_events w w2 =
      [(this, {| source := this; isUserInput := true |});
       (this, {| source := this; isUserInput := true |})].
Proof.
  intros Hd (o & Hthis & Hm & _)%multiple_inv.
  pose proof (selectViaInteraction_enabled w this o Hthis Hd) as Hrun1.
  rewrite Hm in Hrun1.
  set (w1 := selection_set this (negb (_selected o)) true o w) in *.
  assert (options w1 !! this = Some (with_selected (negb (_selected o)) o))
    as Hthis1 by apply lookup_insert_eq.
  assert (disabled this w1 = Some (false, w1)) as Hd1
    by by apply disabled_selection_set.
  pose proof (selectViaInteraction_enabled w1 this _ Hthis1 Hd1) as Hrun2.
  simpl in Hrun2. rewrite Hm, negb_involutive in Hrun2.
  eexists _, _. split; [done|]. split; [done|]. split.
  - simpl. rewrite insert_insert_eq, with_selected_twice, with_selected_id.
    by apply insert_id.
  - apply new_events_app. rewrite emitted_selection_set. subst w1.
    rewrite emitted_selection_set. by rewrite <- app_assoc.
Qed.

(** ** Invariants of the reachable worlds *)

Section Invariants.
Context `{Keycodes}.

Lemma run_is_Some (op : Op) (w w' : World) (r : ref) :
  run op w = Some ((), w') → is_Some (options w !! r) → is_Some (options w' !! r).
Proof.
  intros Hrun [o Hr].
  destruct (run_frame_options op w w' r o Hrun Hr) as (o' & Hr' & _). eauto.
Qed.

(** X11. In every reachable world the counter equals the number of options
    constructed so far, capped at 2^53: a construction adds exactly one
    option and increments the counter until it holds 2^53, where it stays;
    no other operation changes either. *)
Theorem counter_counts_options (w : World) :
  reachable w →
  _uniqueIdCounter w = N.min (N.of_nat (size (options w))) (2 ^ 53).
Proof.
  induction 1 as [|w w' op _ IH Hrun].
  - simpl. by rewrite map_size_empty.
  - by apply (counter_step op w).
Qed.

(** X12. In every reachable world, each selection-change event emitted so
    far names its emitter as its source, and that option exists. *)
Theorem events_name_their_source (w : World) :
  reachable w → events_sourced w.
Proof.
  induction 1 as [|w w' op _ IH Hrun].
  - intros r ev Hin. by apply elem_of_nil in Hin.
  - assert (∀ r ev, (r, ev) ∈ emitted (trace w) →
              source ev = r ∧ is_Some (options w' !! r)) as Hold.
    { intros r ev [Hsrc Halloc]%IH. split; [done|]. by eapply run_is_Some. }
    destruct (run_outcome op w w' Hrun)
      as [[_ (this & o & b & u & Hthis & _ & Ho & He)]
         | [_ [(_ & _ & _ & He) | (o & _ & _ & _ & _ & He)]]];
      intros r ev Hin; rewrite He in Hin; [|by apply Hold ..].
    apply elem_of_app in Hin as [Hin | Hin]; [by apply Hold|].
    apply list_elem_of_singleton in Hin as [= -> ->]. split; [done|].
    rewrite Ho, lookup_insert_eq. eauto.
Qed.

End Invariants.

(** ** Task names *)

Lemma string_list_app (s1 s2 : string) :
  String.list_ascii_of_string (s1 +:+ s2) =
  String.list_ascii_of_string s1 ++ String.list_ascii_of_string s2.
Proof. induction s1 as [|c s1 IH]; simpl; [done | by rewrite IH]. Qed.

Lemma string_list_inj (s1 s2 : string) :
  String.list_ascii_of_string s1 = String.list_ascii_of_string s2 → s1 = s2.
Proof.
  intros Heq. rewrite <- (String.string_of_list_ascii_of_string s1),
                      <- (String.string_of_list_ascii_of_string s2). by rewrite Heq.
Qed.

(** No suffix of a task name ends another one. *)
Lemma task_suffixes_incomparable :
  Forall (λ s1, Forall (λ s2,
    String.list_ascii_of_string s1 `suffix_of` String.list_ascii_of_string s2 → s1 = s2)
      task_suffixes) task_suffixes.
Proof. apply (bool_decide_unpack _). by vm_compute. Qed.

Lemma task_suffix_suffix (s1 s2 : string) :
  s1 ∈ task_suffixes → s2 ∈ task_suffixes →
  String.list_ascii_of_string s1 `suffix_of` String.list_ascii_of_string s2 → s1 = s2.
Proof.
  intros H1 H2. pose proof task_suffixes_incomparable as Hall.
  rewrite Forall_forall in Hall. specialize (Hall s1 H1).
  rewrite Forall_forall in Hall. by apply Hall.
Qed.

Lemma task_name_inj (p q s1 s2 : string) :
  s1 ∈ task_suffixes → s2 ∈ task_suffixes →
  p +:+ s1 = q +:+ s2 → p = q ∧ s1 = s2.
Proof.
  intros H1 H2 Heq.
  assert (s1 = s2) as ->.
  { apply (f_equal String.list_ascii_of_string) in Heq.
    rewrite !string_list_app in Heq.
    destruct (suffix_weak_total (String.list_ascii_of_string s1) (String.list_ascii_of_string s2)
                (String.list_ascii_of_string q ++ String.list_ascii_of_string s2)) as [Hs | Hs].
    - rewrite <- Heq. by eexists.
    - by eexists.
    - by apply task_suffix_suffix.
    - symmetry. by apply task_suffix_suffix. }
  split; [|done].
  apply (f_equal String.list_ascii_of_string) in Heq.
  rewrite !string_list_app in Heq.
  apply app_inv_tail in Heq. by apply string_list_inj.
Qed.

Lemma task_names_disjoint (p q name : string) :
  p ≠ q → name ∈ task_names p → name ∉ task_names q.
Proof.
  intros Hne (s1 & -> & H1)%list_elem_of_fmap (s2 & Heq & H2)%list_elem_of_fmap.
  by destruct (task_name_inj p q s1 s2 H1 H2 Heq).
Qed.

(** ** The task table *)

Ltac in_task_names :=
  repeat first [apply list_elem_of_here | apply list_elem_of_further].

Section TaskTable.
Context `{BuildEnv}.

Lemma createPackageBuildTasks_other (packageName : string)
    (dependencies : option (list string)) (options : option PackageTaskOptions)
    (tasks : gmap string Task) (name : string) :
  name ∉ task_names packageName →
  (createPackageBuildTasks packageName dependencies options tasks).2 !! name
    = tasks !! name.
Proof.
  intros Hname. unfold createPackageBuildTasks, task, mbind, Gulp_bind. cbn [snd].
  repeat (rewrite lookup_insert_ne;
          [|intros <-; apply Hname; unfold task_names, task_suffixes; simpl;
            in_task_names]).
  done.
Qed.

Lemma createPackageBuildTasks_own (packageName : string)
    (dependencies : option (list string)) (options : option PackageTaskOptions)
    (tasks : gmap string Task) (name : string) :
  name ∈ task_names packageName →
  ∃ t, (createPackageBuildTasks packageName dependencies options tasks).2 !! name
         = Some t ∧
       (createPackageBuildTasks packageName dependencies options ∅).2 !! name
         = Some t.
Proof.
  intros (suffix & -> & Hsuffix)%list_elem_of_fmap.
  unfold createPackageBuildTasks, task, mbind, Gulp_bind. cbn [snd].
  unfold task_suffixes in Hsuffix.
  repeat (apply elem_of_cons in Hsuffix as [-> | Hsuffix]);
    [..|by apply elem_of_nil in Hsuffix];
    eexists; (split; [find_task|find_task]).
Qed.

(** X13. The factory registers exactly the fourteen names made of the
    package name and one of the task suffixes, and leaves the task
    registered under any other name as it was. *)
Theorem createPackageBuildTasks_names (packageName : string)
    (dependencies : option (list string)) (options : option PackageTaskOptions)
    (tasks : gmap string Task) :
  let registered :=
    (createPackageBuildTasks packageName dependencies options tasks).2 in
  dom registered = dom tasks ∪ list_to_set (task_names packageName) ∧
  (∀ name, name ∈ task_names packageName → is_Some (registered !! name)) ∧
  (∀ name, name ∉ task_names packageName →
     registered !! name = tasks !! name) ∧
  length (task_names packageName) = 14 ∧
  NoDup (task_names packageName).
Proof.
  intros registered.
  assert (∀ name, name ∈ task_names packageName → is_Some (registered !! name))
    as Hown.
  { intros name Hname.
    destruct (createPackageBuildTasks_own packageName dependencies options
                tasks name Hname) as (t & Ht & _). by exists t. }
  assert (∀ name, name ∉ task_names packageName →
            registered !! name = tasks !! name) as Hother.
  { intros name Hname. by apply createPackageBuildTasks_other. }
  split; [|split; [done|split; [done|split; [done|]]]].
  - apply set_eq. intros name.
    rewrite elem_of_union, elem_of_list_to_set, !elem_of_dom.
    destruct (decide (name ∈ task_names packageName)) as [Hname | Hname].
    + split; [by right | intros _; by apply Hown].
    + rewrite (Hother name Hname). tauto.
  - apply NoDup_fmap_2_strong; [|by apply (bool_decide_unpack _)].
    intros s1 s2 _ _ Heq. by apply (inj (String.append packageName)).
Qed.

(** X14. Packages with different names never share a task name, so the
    factory for one package leaves every task of another package as it
    was. *)
Theorem createPackageBuildTasks_preserves (p q : string)
    (dependencies : option (list string)) (options : option PackageTaskOptions)
    (tasks : gmap string Task) (name : string) :
  p ≠ q →
  name ∈ task_names p →
  (name ∉ task_names q) ∧
  (createPackageBuildTasks q dependencies options tasks).2 !! name
    = tasks !! name.
Proof.
  intros Hne Hname.
  pose proof (task_names_disjoint p q name Hne Hname) as Hq.
  split; [done|]. by apply createPackageBuildTasks_other.
Qed.

(** X15. The order in which two packages with different names are set up
    does not matter: both orders give the same task table. *)
Theorem createPackageBuildTasks_commute (p q : string)
    (dp dq : option (list string)) (op oq : option PackageTaskOptions)
    (tasks : gmap string Task) :
  p ≠ q →
  (createPackageBuildTasks q dq oq (createPackageBuildTasks p dp op tasks).2).2 =
  (createPackageBuildTasks p dp op (createPackageBuildTasks q dq oq tasks).2).2.
Proof.
  intros Hne. apply map_eq. intros name.
  destruct (decide (name ∈ task_names p)) as [Hp | Hp];
    [|destruct (decide (name ∈ task_names q)) as [Hq | Hq]].
  - rewrite createPackageBuildTasks_other by by eapply task_names_disjoint.
    destruct (createPackageBuildTasks_own p dp op tasks name Hp) as (t & -> & Ht).
    destruct (createPackageBuildTasks_own p dp op
                (createPackageBuildTasks q dq oq tasks).2 name Hp)
      as (t' & -> & Ht').
    congruence.
  - rewrite (createPackageBuildTasks_other p) by done.
    destruct (createPackageBuildTasks_own q dq oq tasks name Hq) as (t & -> & Ht).
    destruct (createPackageBuildTasks_own q dq oq
                (createPackageBuildTasks p dp op tasks).2 name Hq)
      as (t' & -> & Ht').
    congruence.
  - by rewrite !createPackageBuildTasks_other.
Qed.

(** X16. Setting a package up again replaces its tasks: after two calls
    for the same package the table is the one that the second call alone
    gives, so a repeated call with the same arguments changes nothing. *)
Theorem createPackageBuildTasks_again (packageName : string)
    (d d' : option (list string)) (o o' : option PackageTaskOptions)
    (tasks : gmap string Task) :
  (createPackageBuildTasks packageName d' o'
     (createPackageBuildTasks packageName d o tasks).2).2 =
  (createPackageBuildTasks packageName d' o' tasks).2.
Proof.
  apply map_eq. intros name.
  destruct (decide (name ∈ task_names packageName)) as [Hname | Hname].
  - destruct (createPackageBuildTasks_own packageName d' o' tasks name Hname)
      as (t & -> & Ht).
    destruct (createPackageBuildTasks_own packageName d' o'
                (createPackageBuildTasks packageName d o tasks).2 name Hname)
      as (t' & -> & Ht').
    congruence.
  - by rewrite !createPackageBuildTasks_other.
Qed.

Lemma bind_TaskName (names : list string) :
  (TaskName <$> names) ≫= sequence_names = names.
Proof. induction names as [|n names IH]; [done|]. csimpl. by rewrite IH. Qed.

Ltac resolve_reference Hown :=
  first
    [ by left
    | right; right; split;
      [|apply Hown]; unfold task_names, task_suffixes; simpl;
      solve [in_task_names] ].

(** X17. The tasks of a package refer only to tasks that exist once its
    dependencies are set up: every name that a registered task of the
    package depends on, runs in sequence or starts from its watcher is the
    global [clean] task, or the [:build], [:build-tests] or [:watch] task
    of a listed dependency, or a task that the factory itself registers. *)
Theorem references_resolve (packageName : string)
    (dependencies : option (list string)) (options : option PackageTaskOptions)
    (tasks : gmap string Task) (name : string) (t : Task) (n : string) :
  let registered :=
    (createPackageBuildTasks packageName dependencies options tasks).2 in
  name ∈ task_names packageName →
  registered !! name = Some t →
  n ∈ references t →
  n = "clean" ∨
  (∃ pkgName, pkgName ∈ default [] dependencies ∧ n ∈ dependency_tasks pkgName) ∨
  (n ∈ task_names packageName ∧ is_Some (registered !! n)).
Proof.
  intros registered (suffix & -> & Hsuffix)%list_elem_of_fmap Ht Hn.
  assert (∀ x, x ∈ task_names packageName → is_Some (registered !! x)) as Hown.
  { intros x Hx.
    destruct (createPackageBuildTasks_own packageName dependencies options
                tasks x Hx) as (t' & Ht' & _). by exists t'. }
  assert (∀ (f : string → string) x,
            x ∈ f <$> default [] dependencies →
            (∀ pkgName, f pkgName ∈ dependency_tasks pkgName) →
            ∃ pkgName, pkgName ∈ default [] dependencies ∧
                       x ∈ dependency_tasks pkgName) as Hdep.
  { intros f x (pkgName & -> & Hin)%list_elem_of_fmap Hf. eauto. }
  subst registered.
  unfold createPackageBuildTasks, task, mbind, Gulp_bind in Ht. cbn [snd] in Ht.
  destruct (default false (useSecondaryEntryPoints
              (default {| useSecondaryEntryPoints := None |} options)));
  unfold task_suffixes in Hsuffix;
  repeat (apply elem_of_cons in Hsuffix as [-> | Hsuffix]);
    try (by apply elem_of_nil in Hsuffix);
    repeat (rewrite lookup_insert_ne in Ht by (by apply task_name_ne));
    rewrite lookup_insert_eq in Ht; injection Ht as <-;
    unfold references in Hn; simpl in Hn;
    rewrite ?bind_app, ?bind_TaskName in Hn; simpl in Hn;
    repeat (first [ apply elem_of_app in Hn as [Hn | Hn]
                  | apply elem_of_cons in Hn as [-> | Hn] ]);
    try (by apply elem_of_nil in Hn);
    try resolve_reference Hown;
    right; left; (eapply Hdep; [exact Hn|]);
    intros pkgName; unfold dependency_tasks; solve [in_task_names].
Qed.

(** X18. The tasks that the build sequence does not name are registered as
    the source writes them: the test build runs the test builds of the
    dependencies, then the test compilation together with the assets, then
    the inlining, and never the bundling; the release depends on the build;
    the asset task only depends on its three sub-tasks; the markup copy
    minifies with the fixed options. *)
Theorem createPackageBuildTasks_rest (packageName : string)
    (dependencies : option (list string)) (options : option PackageTaskOptions)
    (tasks : gmap string Task) :
  let registered :=
    (createPackageBuildTasks packageName dependencies options tasks).2 in
  let packageRoot :=
    join [packagesDir;
          if decide (packageName = "material") then "lib" else packageName] in
  let packageOut := join [outputDir; "packages"; packageName] in
  registered !! (packageName +:+ ":build-tests") =
    Some {| dep := [];
            fn := Some (sequenceTask
              ((TaskName <$> ((λ pkgName, pkgName +:+ ":build-tests")
                                <$> default [] dependencies))
               ++ [TaskGroup [packageName +:+ ":build:esm:tests";
                              packageName +:+ ":assets"];
                   TaskName (packageName +:+ ":assets:inline")])) |} ∧
  registered !! (packageName +:+ ":build-release:clean") =
    Some {| dep := [];
            fn := Some (sequenceTask
              [TaskName "clean"; TaskName (packageName +:+ ":build-release")]) |} ∧
  registered !! (packageName +:+ ":build-release") =
    Some {| dep := [packageName +:+ ":build"];
            fn := Some (arrow
              (composeRelease packageName (options ≫= useSecondaryEntryPoints))) |} ∧
  registered !! (packageName +:+ ":build:esm:tests") =
    Some {| dep := [];
            fn := Some (arrow
              (tsc (join [packageRoot; "tsconfig-tests.json"]) packageRoot)) |} ∧
  registered !! (packageName +:+ ":assets") =
    Some {| dep := [packageName +:+ ":assets:scss";
                    packageName +:+ ":assets:copy-styles";
                    packageName +:+ ":assets:html"];
            fn := None |} ∧
  registered !! (packageName +:+ ":assets:scss") =
    Some {| dep := [];
            fn := Some (buildScssTask packageOut packageRoot true) |} ∧
  registered !! (packageName +:+ ":assets:html") =
    Some {| dep := [];
            fn := Some (arrow
              (src_pipe_dest (join [packageRoot; "**/*.html"])
                 (Some {| collapseWhitespace := true; removeComments := true;
                          caseSensitive := true;
                          removeAttributeQuotes := false |})
                 packageOut)) |}.
Proof.
  intros registered packageRoot packageOut.
  assert (options ≫= useSecondaryEntryPoints =
          useSecondaryEntryPoints
            (default {| useSecondaryEntryPoints := None |} options)) as Huse.
  { by destruct options. }
  subst registered. unfold createPackageBuildTasks, task, mbind, Gulp_bind.
  cbn [snd]. rewrite <- Huse.
  repeat split; find_task.
Qed.

End TaskTable.

(** ** Compiling the secondary entry points *)

Section Compile.
Context `{BuildEnv} `{Toolchain}.

Lemma for_await_tsc_spec (packageRoot : string) (entryPoints : list string) :
  match for_await_tsc packageRoot entryPoints with
  | (calls, None) =>
      calls = entry_point_call packageRoot <$> entryPoints ∧
      Forall (λ p, tsc_settles (join [packageRoot; p; "tsconfig-build.json"])
                     (join [packageRoot; p]) = None) entryPoints
  | (calls, Some reason) =>
      ∃ compiled p rest,
        entryPoints = compiled ++ p :: rest ∧
        Forall (λ p, tsc_settles (join [packageRoot; p; "tsconfig-build.json"])
                       (join [packageRoot; p]) = None) compiled ∧
        tsc_settles (join [packageRoot; p; "tsconfig-build.json"])
          (join [packageRoot; p]) = Some reason ∧
        calls = entry_point_call packageRoot <$> (compiled ++ [p])
  end.
Proof.
  induction entryPoints as [|p rest IH]; simpl; [done|].
  destruct (tsc_settles (join [packageRoot; p; "tsconfig-build.json"])
              (join [packageRoot; p])) as [reason|] eqn:Hp.
  - by exists [], p, rest.
  - destruct (for_await_tsc packageRoot rest) as [calls [reason|]].
    + destruct IH as (compiled & q & rest' & -> & Hall & Hq & ->).
      exists (p :: compiled), q, rest'. by repeat split; [constructor|..].
    + destruct IH as [-> Hall]. split; [done | by constructor].
Qed.

(** X19. [compileSecondaryEntryPointsEsm] compiles the secondary entry
    points of the package one after the other, in their order.  If every
    compilation succeeds, each entry point is compiled once and the
    function succeeds.  If one fails, the function fails with that reason,
    the failing compilation is the last call made, and no later entry
    point is compiled. *)
Theorem compileSecondaryEntryPointsEsm_sequential (packageName packageRoot : string) :
  let entryPoints := getSecondaryEntryPointsForPackage packageName in
  let settles p := tsc_settles (join [packageRoot; p; "tsconfig-build.json"])
                     (join [packageRoot; p]) in
  let calls := (run_compileSecondaryEntryPointsEsm packageName packageRoot).1 in
  let outcome := (run_compileSecondaryEntryPointsEsm packageName packageRoot).2 in
  calls `prefix_of` (entry_point_call packageRoot <$> entryPoints) ∧
  (outcome = None ↔ Forall (λ p, settles p = None) entryPoints) ∧
  (outcome = None → calls = entry_point_call packageRoot <$> entryPoints) ∧
  (∀ reason, outcome = Some reason →
     ∃ compiled p rest,
       entryPoints = compiled ++ p :: rest ∧
       Forall (λ p, settles p = None) compiled ∧
       settles p = Some reason ∧
       calls = entry_point_call packageRoot <$> (compiled ++ [p])).
Proof.
  intros entryPoints settles calls outcome.
  subst calls outcome. unfold run_compileSecondaryEntryPointsEsm.
  fold entryPoints.
  pose proof (for_await_tsc_spec packageRoot entryPoints) as Hspec.
  destruct (for_await_tsc packageRoot entryPoints) as [calls [reason|]]; simpl.
  - destruct Hspec as (compiled & p & rest & Hsplit & Hall & Hp & ->).
    split; [|split; [|split]].
    + rewrite Hsplit, !fmap_app. apply prefix_app, prefix_cons, prefix_nil.
    + split; [done|]. rewrite Hsplit. intros Hnone.
      apply Forall_app in Hnone as [_ Hnone].
      apply Forall_cons in Hnone as [Hnone _]. subst settles. simpl in Hnone.
      congruence.
    + done.
    + intros reason' [= <-]. by exists compiled, p, rest.
  - destruct Hspec as [-> Hall]. by repeat split.
Qed.

End Compile.

(** With three entry points of which the second fails to compile, the
    first two are compiled and the third is not. *)
Example compile_stops_at_failure :
  run_compileSecondaryEntryPointsEsm (H := sample_env) (H0 := sample_toolchain)
    "cdk" "src/cdk" =
  ([tsc "src/cdk/a11y/tsconfig-build.json" "src/cdk/a11y";
    tsc "src/cdk/bidi/tsconfig-build.json" "src/cdk/bidi"], Some "TS2304").
Proof. vm_compute. reflexivity. Qed.

(** ** The theorems at sample inputs *)

Lemma w_selected_reachable : reachable (H := dom_keycodes) w_selected.
Proof.
  eapply (reachable_run _ _ (Select 1)).
  - eapply (reachable_run _ _ (NewOption host1 7 None None)).
    + apply reachable_initial.
    + vm_compute. reflexivity.
  - vm_compute. reflexivity.
Defined.

Lemma operation_frame_witness :
  (∃ o', options w_selected_multiple !! 1%positive = Some o' ∧
     match target (SetMultiple 1 true) with
     | Some (this, fs) =>
         if decide (1%positive = this)
         then writes fs (option1 true false false None) o'
         else o' = option1 true false false None
     | None => o' = option1 true false false None
     end) ∧
  optgroups w_selected_multiple = optgroups w_selected.
Proof.
  apply (operation_frame (H := dom_keycodes) (SetMultiple 1 true)
           w_selected w_selected_multiple 1 (option1 true false false None));
    vm_compute; reflexivity.
Defined.

Lemma id_stable_witness :
  id 1 w_selected_again = Some ("md-option-0", w_selected_again).
Proof.
  apply (id_stable (H := dom_keycodes) (Select 1) w_selected);
    vm_compute; reflexivity.
Defined.

Lemma disabled_stable_witness :
  disabled 1 w_disabled_selected = Some (true, w_disabled_selected).
Proof.
  apply (disabled_stable (H := dom_keycodes) (Select 1) w_disabled).
  - intros this value. discriminate.
  - intros g grp. discriminate.
  - vm_compute. reflexivity.
  - vm_compute. reflexivity.
Defined.

Lemma set_multiple_spec_witness :
  ∃ w', set_multiple 1 true w_selected = Some ((), w') ∧
        multiple 1 w' = Some (true, w') ∧
        selected 1 w' = Some (true, w') ∧
        (true = false → w' = w_selected) ∧
        (true ≠ false → trace w' = trace w_selected ++ [MarkForCheck 7]).
Proof.
  apply (set_multiple_spec w_selected 1 (option1 true false false None) true).
  vm_compute. reflexivity.
Defined.

Lemma set_disableRipple_spec_witness :
  ∃ w', set_disableRipple 1 false w_selected = Some ((), w') ∧
        disableRipple 1 w' = Some (false, w') ∧
        trace w' = trace w_selected ++ [MarkForCheck 7].
Proof.
  apply (set_disableRipple_spec w_selected 1 (option1 true false false None) false).
  vm_compute. reflexivity.
Defined.


Lemma active_styles_spec_witness :
  ∃ w1 w2,
    setActiveStyles 1 w_selected = Some ((), w1) ∧
    active 1 w1 = Some (true, w1) ∧
    setActiveStyles 1 w1 = Some ((), w1) ∧
    trace w1 = trace w_selected ++ [MarkForCheck 7] ∧
    setInactiveStyles 1 w1 = Some ((), w2) ∧
    active 1 w2 = Some (false, w2) ∧
    setInactiveStyles 1 w2 = Some ((), w2) ∧
    trace w2 = trace w1 ++ [MarkForCheck 7].
Proof.
  apply (active_styles_spec w_selected 1 (option1 true false false None)).
  vm_compute. reflexivity.
Defined.

Lemma host_bindings_consistent_witness :
  w_group_disabled = w_group_disabled ∧
  disabled 1 w_group_disabled = Some (true, w_group_disabled) ∧
  selected 1 w_group_disabled = Some (false, w_group_disabled) ∧
  id 1 w_group_disabled = Some ("md-option-0", w_group_disabled) ∧
  "-1" = "-1" ∧ "true" = "true" ∧ "false" = "false" ∧
  ("-1" = "-1" ↔ "true" = "true").
Proof.
  apply (host_bindings_consistent w_group_disabled w_group_disabled 1
           bindings_group_disabled).
  vm_compute. reflexivity.
Defined.

Lemma selectViaInteraction_twice_witness :
  ∃ w1 w2,
    _selectViaInteraction 1 w_multiple = Some ((), w1) ∧
    _selectViaInteraction 1 w1 = Some ((), w2) ∧
    options w2 = options w_multiple ∧
    new_events w_multiple w2 =
      [(1%positive, {| source := 1; isUserInput := true |});
       (1%positive, {| source := 1; isUserInput := true |})].
Proof.
  apply (selectViaInteraction_twice w_multiple 1); vm_compute; reflexivity.
Defined.

Lemma counter_counts_options_witness :
  _uniqueIdCounter w_two = N.min (N.of_nat (size (options w_two))) (2 ^ 53).
Proof.
  apply (counter_counts_options (H := dom_keycodes) w_two), w_two_reachable.
Defined.

Lemma events_name_their_source_witness : events_sourced w_selected.
Proof.
  apply (events_name_their_source (H := dom_keycodes) w_selected),
    w_selected_reachable.
Defined.

Lemma createPackageBuildTasks_preserves_witness :
  ("cdk:build" ∉ task_names "material") ∧
  (createPackageBuildTasks (H := sample_env) "material" (Some ["cdk"]) None
     (createPackageBuildTasks (H := sample_env) "cdk" None None ∅).2).2
    !! "cdk:build"
  = (createPackageBuildTasks (H := sample_env) "cdk" None None ∅).2 !! "cdk:build".
Proof.
  apply (createPackageBuildTasks_preserves (H := sample_env) "cdk" "material").
  - discriminate.
  - vm_compute. in_task_names.
Defined.

Lemma createPackageBuildTasks_commute_witness :
  (createPackageBuildTasks (H := sample_env) "material" (Some ["cdk"]) None
     (createPackageBuildTasks (H := sample_env) "cdk" None None ∅).2).2 =
  (createPackageBuildTasks (H := sample_env) "cdk" None None
     (createPackageBuildTasks (H := sample_env) "material" (Some ["cdk"]) None ∅).2).2.
Proof.
  apply (createPackageBuildTasks_commute (H := sample_env) "cdk" "material").
  discriminate.
Defined.

Lemma references_resolve_witness :
  "cdk:build" = "clean" ∨
  (∃ pkgName, pkgName ∈ ["cdk"] ∧ "cdk:build" ∈ dependency_tasks pkgName) ∨
  ("cdk:build" ∈ task_names "material" ∧
   is_Some ((createPackageBuildTasks (H := sample_env) "material"
               (Some ["cdk"]) None ∅).2 !! "cdk:build")).
Proof.
  apply (references_resolve (H := sample_env) "material" (Some ["cdk"]) None ∅
           "material:build" material_build_task "cdk:build").
  - vm_compute. in_task_names.
  - vm_compute. reflexivity.
  - vm_compute. in_task_names.
Defined.
